(** * word_count_from_json: a shallow embedding and its properties

    The script turns a corpus of Chinese text snippets into a frequency
    table enriched with translations and pinyin.  Its pure functions are
    embedded here as Rocq functions over Python's data: a [str] is a
    sequence of Unicode code points, a [Counter] is an insertion-ordered
    table, the CEDICT dictionary is a finite map.  The three external
    libraries (jieba, pypinyin, googletrans) are parameters of the
    pipeline. *)

From Stdlib Require Import ZArith NArith Lia.
From stdpp Require Import gmap list sorting.

#[local] Set Warnings "-clear-no-such-hyp".

(** ** Python strings *)

(** A Python [str] is a sequence of code points. *)
Abbreviation char := N (only parsing).
Abbreviation str := (list N) (only parsing).

Module Py.
Local Open Scope N_scope.

(** The literals of the script. *)
Definition comma_space : str := [44; 32].        (* ", "  *)
Definition space_plus_space : str := [32; 43; 32]. (* " + " *)
Definition question_mark : str := [63].          (* "?"   *)
Definition space : str := [32].                  (* " "   *)
Definition newline : str := [10].                (* "\n"  *)

(** [str.isspace] of one code point: the characters that [\s] matches
    in a [str] pattern and that [str.strip()] removes. *)
Definition isspace (c : char) : bool :=
  ((9 <=? c) && (c <=? 13)) || ((28 <=? c) && (c <=? 32))
  || (c =? 0x85) || (c =? 0xA0) || (c =? 0x1680)
  || ((0x2000 <=? c) && (c <=? 0x200A))
  || (c =? 0x2028) || (c =? 0x2029) || (c =? 0x202F)
  || (c =? 0x205F) || (c =? 0x3000).

(** [sep.join(items)] *)
Fixpoint join (sep : str) (items : list str) : str :=
  match items with
  | [] => []
  | [x] => x
  | x :: rest => x ++ sep ++ join sep rest
  end.

(** [s.split(sep)] for a one-character separator. *)
Fixpoint split (sep : char) (s : str) : list str :=
  match s with
  | [] => [[]]
  | c :: s' =>
      if c =? sep then [] :: split sep s'
      else match split sep s' with
           | h :: t => (c :: h) :: t
           | [] => [[c]]
           end
  end.

Fixpoint lstrip (s : str) : str :=
  match s with
  | [] => []
  | c :: s' => if isspace c then lstrip s' else s
  end.

(** [s.strip()] *)
Definition strip (s : str) : str := reverse (lstrip (reverse (lstrip s))).

(** Truth value of a [str]: non-empty. *)
Definition truthy (s : str) : bool :=
  match s with [] => false | _ :: _ => true end.

(** [range(0, stop, step)] for a positive step. *)
Definition range0 (stop step : nat) : list nat :=
  (λ k, k * step)%nat <$> seq 0 ((stop + step - 1) / step)%nat.

End Py.

(** ** The fragment of [re] that the script uses

    Both patterns of the script are one bracket expression.  An item of a
    bracket expression is a range of code points or the class [\s]. *)
Module Re.
Local Open Scope N_scope.

Inductive item :=
| Range (lo hi : char)
| Whitespace.

Record charset := { negated : bool; items : list item }.

Definition item_matches (c : char) (i : item) : bool :=
  match i with
  | Range lo hi => (lo <=? c) && (c <=? hi)
  | Whitespace => Py.isspace c
  end.

Definition matches (p : charset) (c : char) : bool :=
  xorb (negated p) (existsb (item_matches c) (items p)).

(** [re.sub(p, repl, text)]: every character that [p] matches is
    replaced by [repl], the others are copied. *)
Fixpoint sub (p : charset) (repl : str) (text : str) : str :=
  match text with
  | [] => []
  | c :: text' =>
      if matches p c then repl ++ sub p repl text'
      else c :: sub p repl text'
  end.

(** [re.match(p, s)] as a truth value: [p] matches at the start. *)
Definition match_ (p : charset) (s : str) : bool :=
  match s with
  | [] => false
  | c :: _ => matches p c
  end.

End Re.

(** [[^一-鿿A-Za-z0-9\s]]; 一 is U+4E00 and 鿿 is U+9FFF. *)
Definition not_kept : Re.charset :=
  {| Re.negated := true;
     Re.items := [Re.Range 0x4E00 0x9FFF; Re.Range 65 90; Re.Range 97 122;
                  Re.Range 48 57; Re.Whitespace]%N |}.

(** [[一-鿿]] *)
Definition hanzi : Re.charset :=
  {| Re.negated := false; Re.items := [Re.Range 0x4E00 0x9FFF]%N |}.

Definition clean_text (text : str) : str := Re.sub not_kept [] text.

(** ** [collections.Counter]

    A [Counter] is a [dict]: it iterates in insertion order, and
    incrementing a key that is present keeps the key where it is. *)
Abbreviation counter := (list (str * Z)) (only parsing).

(** [c[elem] = c.get(elem, 0) + 1] *)
Fixpoint count_element (elem : str) (c : counter) : counter :=
  match c with
  | [] => [(elem, 1%Z)]
  | (k, n) :: c' =>
      if decide (k = elem) then (k, (n + 1)%Z) :: c'
      else (k, n) :: count_element elem c'
  end.

(** [Counter(iterable)] *)
Definition Counter (iterable : list str) : counter :=
  foldl (λ c elem, count_element elem c) [] iterable.

(** [sum(c.values())] *)
Definition sum_values (c : counter) : Z :=
  foldl (λ acc kv, (acc + kv.2)%Z) 0%Z c.

(** ** CEDICT entries *)

Record CedictEntry := {
  traditional : str;
  simplified : str;
  pinyin : str;
  meanings : list str;
  raw_line : str
}.

(** [{entry.simplified: entry for entry in entries}] *)
Definition load_cedict_dictionary (entries : list CedictEntry)
  : gmap str CedictEntry :=
  foldl (λ d entry, <[simplified entry := entry]> d) ∅ entries.

(** ** [sorted(xs, key=key, reverse=True)]

    [sorted] is stable, also with [reverse=True]: elements with equal
    keys keep their order.  It is embedded as a stable insertion sort. *)
Section Sorted.
Context {A : Type} (key : A → Z).

Fixpoint insert_desc (x : A) (l : list A) : list A :=
  match l with
  | [] => [x]
  | y :: l' =>
      if (key y <=? key x)%Z then x :: y :: l'
      else y :: insert_desc x l'
  end.

Definition sorted_desc (l : list A) : list A := foldr insert_desc [] l.
End Sorted.

(** ** The output document *)

Record Entry := {
  Word : str;
  Count : Z;
  Translation : str;
  Pinyin : str
}.

Record Metadata := { total_words : Z; unique_words : Z }.

Record Output := { metadata : Metadata; data : list Entry }.

(** ** Logging and the translation client

    The log lines of the translation loop are kept, as the loop reports a
    failed batch there; the other log lines of the script carry no value
    that a result depends on and are left out. *)

Inductive LogRecord :=
| InfoTranslatingBatch (batch_no total : nat)
| ErrorTranslatingBatch (batch_no : nat) (e : str).

(** What the [try] block of a batch sees of [await
    translator.translate(...)]: an object with a [text], or an exception
    [e] that [except Exception as e] catches. *)
Inductive Reply :=
| Translated (text : str)
| Raised (e : str).

(** The state of the loop of [fetch_missing_translations]: the
    [translations] dictionary, the number of [translate] calls made so far
    and the log lines written. *)
Record Fetch := {
  translations : gmap str str;
  calls : nat;
  log : list LogRecord
}.

Definition batch_size : nat := 100.

(** ** The pipeline *)
Section Pipeline.

(** [jieba.lcut] *)
Variable lcut : str → list str.
(** [pinyin(char, style=Style.TONE3)[0][0]]: for one character pypinyin
    returns one list of readings, of which the first is taken. *)
Variable tone3 : char → str.
(** [translator.translate(text, src='zh-cn', dest='en')]; the service is
    remote, so its reply to the [n]-th call of a run is [translate n]. *)
Variable translate : nat → str → Reply.

(** [word.strip() and re.match(r'[一-鿿]', word)] *)
Definition is_chinese_word (word : str) : bool :=
  Py.truthy (Py.strip word) && Re.match_ hanzi word.

(** The list [all_words] at the end of the loop of [segment_text]. *)
Definition all_words (texts : list str) : list str :=
  foldl (λ all_words text,
           let clean := clean_text text in
           let segmented := lcut clean in
           all_words ++ filter (λ word, is_chinese_word word) segmented)
        [] texts.

Definition segment_text (texts : list str) : counter :=
  Counter (all_words texts).

Definition derive_translation_from_components
    (word : str) (dictionary : gmap str CedictEntry) : str :=
  let character_translations :=
    foldl (λ acc c,
             match dictionary !! [c] with
             | Some char_entry =>
                 acc ++ [Py.join Py.comma_space (meanings char_entry)]
             | None => acc ++ [Py.question_mark]
             end)
          [] word in
  Py.join Py.space_plus_space character_translations.

(** [missing_words[i:i + batch_size]] *)
Definition batch_at (missing_words : list str) (i : nat) : list str :=
  take batch_size (drop i missing_words).

(** One iteration of the loop of [fetch_missing_translations]. *)
Definition fetch_batch (missing_words : list str) (st : Fetch) (i : nat)
  : Fetch :=
  let batch := batch_at missing_words i in
  let info :=
    InfoTranslatingBatch (i / batch_size + 1)
      ((length missing_words + batch_size - 1) / batch_size) in
  match translate (calls st) (Py.join Py.newline batch) with
  | Translated text =>
      let batch_results := Py.split 10%N text in
      {| translations :=
           foldl (λ t wt, <[wt.1 := wt.2]> t) (translations st)
                 (zip batch batch_results);
         calls := S (calls st);
         log := log st ++ [info] |}
  | Raised e =>
      {| translations := translations st;
         calls := S (calls st);
         log := log st
                ++ [info; ErrorTranslatingBatch (i / batch_size + 1) e] |}
  end.

Definition fetch_init : Fetch :=
  {| translations := ∅; calls := 0; log := [] |}.

Definition fetch_missing_translations (missing_words : list str) : Fetch :=
  foldl (fetch_batch missing_words) fetch_init
        (Py.range0 (length missing_words) batch_size).

(** The number of iterations of the loop: [len(range(0, len(missing_words),
    batch_size))]. *)
Definition batch_count (missing_words : list str) : nat :=
  length (Py.range0 (length missing_words) batch_size).

(** The text sent for the [k]-th batch. *)
Definition payload (missing_words : list str) (k : nat) : str :=
  Py.join Py.newline (batch_at missing_words (k * batch_size)).

(** The state of the loop after its first [n] iterations. *)
Definition fetch_upto (missing_words : list str) (n : nat) : Fetch :=
  foldl (fetch_batch missing_words) fetch_init
        ((λ k, k * batch_size)%nat <$> seq 0 n).

(** The list [missing_words] of [add_translations_and_pinyin]. *)
Definition missing_words_of (word_counts : counter)
    (dictionary : gmap str CedictEntry) : list str :=
  filter (λ word, dictionary !! word = None) word_counts.*1.

(** [await fetch_missing_translations(missing_words) if missing_words
    else {}], with the calls made and the lines logged. *)
Definition fetch_run (word_counts : counter)
    (dictionary : gmap str CedictEntry) : Fetch :=
  match missing_words_of word_counts dictionary with
  | [] => fetch_init
  | missing_words => fetch_missing_translations missing_words
  end.

(** The body of the second loop of [add_translations_and_pinyin].  An
    entry is an object with no [__bool__] and no [__len__], so [if entry:]
    holds exactly when the word is a key of the dictionary. *)
Definition enhance (dictionary : gmap str CedictEntry)
    (missing_translations : gmap str str) (wc : str * Z) : Entry :=
  let '(word, count) := wc in
  match dictionary !! word with
  | Some entry =>
      {| Word := word; Count := count;
         Translation := Py.join Py.comma_space (meanings entry);
         Pinyin := pinyin entry |}
  | None =>
      {| Word := word; Count := count;
         Translation :=
           default (derive_translation_from_components word dictionary)
                   (missing_translations !! word);
         Pinyin :=
           Py.join Py.space
             (tone3 <$> filter (λ c, Re.match_ hanzi [c]) word) |}
  end.

Definition add_translations_and_pinyin (word_counts : counter)
    (dictionary : gmap str CedictEntry) : list Entry :=
  let missing_translations :=
    translations (fetch_run word_counts dictionary) in
  let enhanced_data :=
    enhance dictionary missing_translations <$> word_counts in
  sorted_desc Count enhanced_data.

(** The document that [save_enhanced_data] writes. *)
Definition save_enhanced_data (enhanced_data : list Entry)
    (word_counts : counter) : Output :=
  {| metadata := {| total_words := sum_values word_counts;
                    unique_words := Z.of_nat (length word_counts) |};
     data := enhanced_data |}.

(** [main], from the parsed input file and the parsed dictionary file
    to the document written; [print_statistics] only logs. *)
Definition main (texts : list str) (entries : list CedictEntry) : Output :=
  let word_counts := segment_text texts in
  let dictionary := load_cedict_dictionary entries in
  let enhanced_data := add_translations_and_pinyin word_counts dictionary in
  save_enhanced_data enhanced_data word_counts.

End Pipeline.

(** * The vocabulary of the properties *)

(** The characters that the cleaner is said to keep: the ideographs of
    U+4E00..U+9FFF, the ASCII letters and digits, and whitespace. *)
Definition kept (c : char) : Prop :=
  (0x4E00 ≤ c ≤ 0x9FFF)%N ∨ (65 ≤ c ≤ 90)%N ∨ (97 ≤ c ≤ 122)%N
  ∨ (48 ≤ c ≤ 57)%N ∨ Py.isspace c.

#[global] Instance kept_dec c : Decision (kept c).
Proof. unfold kept. apply _. Defined.

(** The same with the wider range U+4E00..U+FAFF for the ideographs. *)
Definition kept_up_to_FAFF (c : char) : Prop :=
  (0x4E00 ≤ c ≤ 0xFAFF)%N ∨ (65 ≤ c ≤ 90)%N ∨ (97 ≤ c ≤ 122)%N
  ∨ (48 ≤ c ≤ 57)%N ∨ Py.isspace c.

#[global] Instance kept_up_to_FAFF_dec c : Decision (kept_up_to_FAFF c).
Proof. unfold kept_up_to_FAFF. apply _. Defined.

(** A token that the filter is said to keep: not empty, not made of
    whitespace only, and starting with an ideograph of U+4E00..U+9FFF. *)
Definition chinese_token (w : str) : Prop :=
  w ≠ [] ∧ ¬ Forall (λ c, Py.isspace c) w
  ∧ ∃ c rest, w = c :: rest ∧ (0x4E00 ≤ c ≤ 0x9FFF)%N.

(** [c[k]], which is 0 for a key that is absent. *)
Fixpoint get (k : str) (c : counter) : Z :=
  match c with
  | [] => 0
  | (k', n) :: c' => if decide (k' = k) then n else get k c'
  end.

(** [ws.index(w)], the position of the first occurrence. *)
Fixpoint first_index (w : str) (ws : list str) : option nat :=
  match ws with
  | [] => None
  | x :: ws' => if decide (x = w) then Some 0%nat else S <$> first_index w ws'
  end.

(** [ws.count(w)] *)
Definition occurrences (w : str) (ws : list str) : nat :=
  length (filter (λ x, x = w) ws).

(** The sum of the [Count] fields of a sequence of entries. *)
Definition sum_counts (l : list Entry) : Z :=
  foldr (λ e acc, (Count e + acc)%Z) 0%Z l.

(** The gloss of a word, character by character: the meanings of a
    character that is a headword joined by ", ", "?" for one that is not,
    all joined by " + ". *)
Definition per_character_gloss (word : str)
    (dictionary : gmap str CedictEntry) : str :=
  Py.join Py.space_plus_space
    ((λ c, match dictionary !! [c] with
           | Some entry => Py.join Py.comma_space (meanings entry)
           | None => Py.question_mark
           end) <$> word).

(** ** Sample inputs *)

(** A segmenter that cuts a text into its characters. *)
Definition lcut_chars (s : str) : list str := (λ c, [c]) <$> s.

(** A romanizer that writes the character and the tone digit 1. *)
Definition tone3_sample (c : char) : str := [c; 49%N].

(** A translation service that is down. *)
Definition translate_down (n : nat) (text : str) : Reply := Raised [].

(** A translation service whose first call fails and whose later calls
    return the text they were sent. *)
Definition translate_flaky (n : nat) (text : str) : Reply :=
  if decide (n = 0%nat) then Raised [116; 105; 109; 101; 111; 117; 116]%N
  else Translated text.

(** "你好世界！😀123" and "你世" *)
Definition sample_texts : list str :=
  [[0x4F60; 0x597D; 0x4E16; 0x754C; 0xFF01; 0x1F600; 49; 50; 51];
   [0x4F60; 0x4E16]]%N.

(** The entry of 你: "ni3", "you". *)
Definition sample_entry : CedictEntry :=
  {| traditional := [0x4F60]%N; simplified := [0x4F60]%N;
     pinyin := [110; 105; 51]%N; meanings := [[121; 111; 117]%N];
     raw_line := [] |}.

(** A table of 101 one-character words, each counted once. *)
Definition sample_counts : counter :=
  (λ i, ([0x4E00 + N.of_nat i]%N, 1%Z)) <$> seq 0 101.

(** ** The statistics *)

(** [c.most_common(n)] is [heapq.nlargest(n, c.items(), key=itemgetter(1))],
    that is [sorted(c.items(), key=itemgetter(1), reverse=True)[:n]]. *)
Definition most_common (n : nat) (c : counter) : counter :=
  take n (sorted_desc snd c).

(** The three values that [print_statistics] logs. *)
Record Statistics := {
  logged_total : Z;
  logged_unique : Z;
  logged_top : counter
}.

Definition print_statistics (word_counts : counter) : Statistics :=
  {| logged_total := sum_values word_counts;
     logged_unique := Z.of_nat (length word_counts);
     logged_top := most_common 5 word_counts |}.

(** The batches of the loop of [fetch_missing_translations], in order. *)
Definition batches (missing_words : list str) : list (list str) :=
  batch_at missing_words <$> Py.range0 (length missing_words) batch_size.

(** A string with no line break. *)
Definition one_line (s : str) : Prop := 10%N ∉ s.

(** "123!" *)
Definition sample_digits : str := [49; 50; 51; 33]%N.

(** A second entry for 你, "thou", and the entry of 世, "world". *)
Definition sample_entry_again : CedictEntry :=
  {| traditional := [0x4F60]%N; simplified := [0x4F60]%N;
     pinyin := [110; 105; 51]%N; meanings := [[116; 104; 111; 117]%N];
     raw_line := [] |}.

Definition sample_entry_world : CedictEntry :=
  {| traditional := [0x4E16]%N; simplified := [0x4E16]%N;
     pinyin := [115; 104; 105; 52]%N;
     meanings := [[119; 111; 114; 108; 100]%N];
     raw_line := [] |}.

(** A translation service that answers every call with the one line
    "hello". *)
Definition translate_hello (n : nat) (text : str) : Reply :=
  Translated [104; 101; 108; 108; 111]%N.

(** A translation service that returns the text it was sent. *)
Definition translate_echo (n : nat) (text : str) : Reply := Translated text.

(** * Properties *)

(** ** The cleaner *)

Lemma range_matches lo hi c :
  Re.item_matches c (Re.Range lo hi) ↔ (lo ≤ c ≤ hi)%N.
Proof.
  simpl. rewrite andb_True, !Is_true_true, !N.leb_le. done.
Qed.

Lemma not_kept_matches c : Re.matches not_kept c = negb (bool_decide (kept c)).
Proof.
  unfold Re.matches, not_kept; cbn [Re.negated Re.items existsb].
  rewrite xorb_true_l. f_equal.
  apply eq_bool_prop_intro. rewrite bool_decide_spec.
  rewrite !orb_True, !range_matches. unfold kept. simpl. tauto.
Qed.

Lemma hanzi_matches c : Re.matches hanzi c ↔ (0x4E00 ≤ c ≤ 0x9FFF)%N.
Proof.
  unfold Re.matches, hanzi; cbn [Re.negated Re.items existsb].
  rewrite xorb_false_l, orb_false_r. apply range_matches.
Qed.

Lemma clean_text_cons c text :
  clean_text (c :: text)
  = if decide (kept c) then c :: clean_text text else clean_text text.
Proof.
  unfold clean_text; cbn [Re.sub]. rewrite not_kept_matches.
  case_decide as Hc.
  - by rewrite (bool_decide_eq_true_2 _ Hc).
  - by rewrite (bool_decide_eq_false_2 _ Hc).
Qed.

Lemma clean_text_filter text : clean_text text = filter kept text.
Proof.
  induction text as [|c text IH]; [done|].
  rewrite clean_text_cons, filter_cons, IH. done.
Qed.

(** C4, as amended: the cleaner keeps exactly the characters of its input
    that are ideographs of U+4E00..U+9FFF, ASCII letters, ASCII digits or
    whitespace, in their order; the others are deleted, and the empty
    string is cleaned to the empty string. *)
Theorem clean_text_keeps_exactly (text : str) :
  clean_text text = filter kept text ∧ clean_text [] = [].
Proof. split; [apply clean_text_filter | done]. Qed.

(** C4, as stated, fails: U+F900 lies in U+4E00..U+FAFF and the cleaner
    deletes it. *)
Lemma clean_text_deletes_F900 :
  clean_text [0xF900%N] ≠ filter kept_up_to_FAFF [0xF900%N].
Proof. vm_compute. discriminate. Qed.

(** C9: cleaning twice is cleaning once. *)
Theorem clean_text_idempotent (text : str) :
  clean_text (clean_text text) = clean_text text.
Proof.
  induction text as [|c text IH]; [done|].
  rewrite clean_text_cons. case_decide as Hc; [|done].
  rewrite clean_text_cons, decide_True by done. by rewrite IH.
Qed.

(** ** The tokenizer's filter *)

Lemma lstrip_spaces s :
  Forall (λ c, Py.isspace c) (Py.lstrip s) ↔ Forall (λ c, Py.isspace c) s.
Proof.
  induction s as [|c s IH]; [done|]. cbn [Py.lstrip].
  destruct (Py.isspace c) eqn:Hc; [|done].
  rewrite IH, Forall_cons. rewrite Hc. naive_solver.
Qed.

Lemma lstrip_nil s : Py.lstrip s = [] ↔ Forall (λ c, Py.isspace c) s.
Proof.
  induction s as [|c s IH]; [done|]. cbn [Py.lstrip].
  destruct (Py.isspace c) eqn:Hc.
  - rewrite IH, Forall_cons, Hc. naive_solver.
  - split; [done|]. intros [H _]%Forall_cons. by rewrite Hc in H.
Qed.

Lemma strip_truthy s :
  Py.truthy (Py.strip s) ↔ ¬ Forall (λ c, Py.isspace c) s.
Proof.
  assert (Hnil : Py.strip s = [] ↔ Forall (λ c, Py.isspace c) s).
  { unfold Py.strip.
    rewrite <- (lstrip_spaces s), <- (Forall_reverse _ (Py.lstrip s)).
    rewrite <- lstrip_nil. split; [|by intros ->].
    intros H. by rewrite <- (reverse_involutive (Py.lstrip _)), H. }
  rewrite <- Hnil. destruct (Py.strip s); simpl; naive_solver.
Qed.

Lemma is_chinese_word_spec w : is_chinese_word w ↔ chinese_token w.
Proof.
  unfold is_chinese_word, chinese_token.
  rewrite andb_True, strip_truthy. destruct w as [|c rest]; simpl.
  - naive_solver.
  - rewrite hanzi_matches. naive_solver.
Qed.

(** ** The counter *)

Lemma count_element_keys w (c : counter) :
  (count_element w c).*1 = if decide (w ∈ c.*1) then c.*1 else c.*1 ++ [w].
Proof.
  induction c as [|[k n] c IH]; cbn [count_element].
  - rewrite decide_False; [done | apply not_elem_of_nil].
  - destruct (decide (k = w)) as [->|Hne]; rewrite !fmap_cons; cbn [fst].
    + rewrite decide_True by left. done.
    + rewrite IH. destruct (decide (w ∈ c.*1)) as [Hin|Hin].
      * rewrite decide_True by (by right). done.
      * rewrite decide_False; [done|].
        intros [->|?]%elem_of_cons; done.
Qed.

Lemma Counter_snoc ws w : Counter (ws ++ [w]) = count_element w (Counter ws).
Proof. unfold Counter. by rewrite foldl_snoc. Qed.

Lemma Counter_keys_elem ws w : w ∈ (Counter ws).*1 ↔ w ∈ ws.
Proof.
  induction ws as [|x ws IH] using rev_ind.
  - cbn. by rewrite !elem_of_nil.
  - rewrite Counter_snoc, count_element_keys, elem_of_app, list_elem_of_singleton.
    case_decide as Hx; [|rewrite elem_of_app, list_elem_of_singleton];
      naive_solver.
Qed.

Lemma Counter_keys_NoDup ws : NoDup (Counter ws).*1.
Proof.
  induction ws as [|x ws IH] using rev_ind; [constructor|].
  rewrite Counter_snoc, count_element_keys.
  case_decide as Hx; [done|].
  apply NoDup_app. split_and!; [done| |apply NoDup_singleton].
  intros y Hy ->%list_elem_of_singleton. done.
Qed.

Lemma get_count_element k w (c : counter) :
  get k (count_element w c)
  = if decide (k = w) then (get k c + 1)%Z else get k c.
Proof.
  induction c as [|[k' n] c IH]; simpl.
  - repeat case_decide; naive_solver.
  - destruct (decide (k' = w)) as [->|Hne]; simpl.
    + repeat case_decide; naive_solver.
    + rewrite IH. repeat case_decide; naive_solver.
Qed.

Lemma occurrences_snoc k ws w :
  occurrences k (ws ++ [w])
  = if decide (k = w) then S (occurrences k ws) else occurrences k ws.
Proof.
  unfold occurrences. rewrite filter_app, length_app, filter_cons, filter_nil.
  repeat case_decide; simpl; try lia; congruence.
Qed.

Lemma get_Counter k ws : get k (Counter ws) = Z.of_nat (occurrences k ws).
Proof.
  induction ws as [|x ws IH] using rev_ind; [done|].
  rewrite Counter_snoc, get_count_element, occurrences_snoc, IH.
  case_decide; [rewrite Nat2Z.inj_succ|]; lia.
Qed.

Lemma get_elem_of k n (c : counter) : NoDup c.*1 → (k, n) ∈ c → get k c = n.
Proof.
  induction c as [|[k' n'] c IH]; simpl.
  - by intros _ ?%elem_of_nil.
  - intros [Hk' Hnd]%NoDup_cons [[= -> ->]|Hin]%elem_of_cons.
    + by rewrite decide_True.
    + rewrite decide_False; [by apply IH|].
      intros ->. apply Hk'. apply list_elem_of_fmap. by exists (k, n).
Qed.

Lemma occurrences_pos k ws : k ∈ ws → (1 ≤ occurrences k ws)%nat.
Proof.
  intros Hin. unfold occurrences.
  assert (Hk : k ∈ filter (λ x, x = k) ws) by by apply list_elem_of_filter.
  destruct (filter _ ws); [by apply elem_of_nil in Hk | simpl; lia].
Qed.

Lemma Counter_elem_of k n ws :
  (k, n) ∈ Counter ws → k ∈ ws ∧ n = Z.of_nat (occurrences k ws) ∧ (1 ≤ n)%Z.
Proof.
  intros Hin.
  assert (Hk : k ∈ ws).
  { apply Counter_keys_elem, list_elem_of_fmap. by exists (k, n). }
  apply get_elem_of in Hin; [|apply Counter_keys_NoDup].
  rewrite get_Counter in Hin. pose proof (occurrences_pos k ws Hk).
  split_and!; [done|lia|lia].
Qed.

Lemma sum_values_acc (c : counter) a :
  foldl (λ acc kv, (acc + kv.2)%Z) a c = (a + sum_values c)%Z.
Proof.
  unfold sum_values. revert a.
  induction c as [|kv c IH]; intros a; simpl; [lia|].
  rewrite (IH (a + kv.2)%Z), (IH (0 + kv.2)%Z). lia.
Qed.

Lemma sum_values_cons kv (c : counter) :
  sum_values (kv :: c) = (kv.2 + sum_values c)%Z.
Proof. unfold sum_values at 1. simpl. rewrite sum_values_acc. lia. Qed.

Lemma sum_values_count_element w (c : counter) :
  sum_values (count_element w c) = (sum_values c + 1)%Z.
Proof.
  induction c as [|[k n] c IH]; [done|]. simpl.
  case_decide; rewrite !sum_values_cons; simpl; [lia|]. rewrite IH. lia.
Qed.

Lemma sum_values_Counter ws : sum_values (Counter ws) = Z.of_nat (length ws).
Proof.
  induction ws as [|x ws IH] using rev_ind; [done|].
  rewrite Counter_snoc, sum_values_count_element, IH, length_app. simpl. lia.
Qed.

Lemma Counter_length ws :
  length (Counter ws) = size (list_to_set ws : gset str).
Proof.
  rewrite <- (length_fmap fst).
  rewrite <- (size_list_to_set (C := gset str)) by apply Counter_keys_NoDup.
  f_equal. apply set_eq. intros x.
  by rewrite !elem_of_list_to_set, Counter_keys_elem.
Qed.

(** *** The order of the keys: first seen, first listed *)

Lemma first_index_lt w ws a : first_index w ws = Some a → (a < length ws)%nat.
Proof.
  revert a. induction ws as [|x ws IH]; intros a; cbn [first_index]; [done|].
  case_decide.
  - intros [= <-]. simpl. lia.
  - destruct (first_index w ws) as [b|]; [|done].
    intros [= <-]. specialize (IH b eq_refl). simpl. lia.
Qed.

Lemma first_index_None w ws : first_index w ws = None ↔ w ∉ ws.
Proof.
  induction ws as [|x ws IH]; cbn [first_index].
  - split; [intros _; apply not_elem_of_nil | done].
  - rewrite not_elem_of_cons. case_decide as Hx.
    + naive_solver.
    + destruct (first_index w ws); naive_solver.
Qed.

Lemma first_index_snoc w ws x :
  first_index w (ws ++ [x])
  = match first_index w ws with
    | Some a => Some a
    | None => if decide (x = w) then Some (length ws) else None
    end.
Proof.
  induction ws as [|y ws IH]; cbn [app first_index].
  - by case_decide.
  - destruct (decide (y = w)); [done|]. rewrite IH.
    destruct (first_index w ws); [done|]. by case_decide.
Qed.

Lemma Counter_keys_order ws k1 k2 :
  [k1; k2] `sublist_of` (Counter ws).*1 →
  ∃ a b, first_index k1 ws = Some a ∧ first_index k2 ws = Some b ∧ (a < b)%nat.
Proof.
  induction ws as [|x ws IH] using rev_ind.
  - intros H. change ([k1; k2] `sublist_of` []) in H.
    apply sublist_nil_r in H. discriminate.
  - rewrite Counter_snoc, count_element_keys, !first_index_snoc.
    case_decide as Hx.
    + intros (a & b & -> & -> & ?)%IH. eauto.
    + intros (l1 & l2 & Heq & H1 & H2)%sublist_app_r.
      assert (Hl2 : l2 = [] ∨ l2 = [x]).
      { destruct l2 as [|y l2]; [by left|right].
        apply sublist_cons_l in H2 as (m1 & m2 & Hm & Hs).
        destruct m1 as [|? [|? ?]]; simplify_eq/=.
        apply sublist_nil_r in Hs. by subst. }
      destruct Hl2 as [->| ->].
      * rewrite app_nil_r in Heq. subst l1.
        apply IH in H1 as (a & b & -> & -> & ?). eauto.
      * destruct l1 as [|u [|v l1]]; [done| |].
        2: { injection Heq as _ _ Heq. by destruct l1. }
        injection Heq as <- <-.
        assert (Hk1 : k1 ∈ ws).
        { apply Counter_keys_elem. eapply elem_of_sublist; [|done]. left. }
        destruct (first_index k1 ws) as [a|] eqn:Ha;
          [|by apply first_index_None in Ha].
        assert (Hnone : first_index k2 ws = None).
        { apply first_index_None. by rewrite <- Counter_keys_elem. }
        rewrite Hnone, decide_True by done.
        apply first_index_lt in Ha. eauto.
Qed.

Lemma filter_sublist_mono {A} (P : A → Prop) `{!∀ x, Decision (P x)} l1 l2 :
  l1 `sublist_of` l2 → filter P l1 `sublist_of` filter P l2.
Proof.
  induction 1 as [|x l1 l2 Hs IH|x l1 l2 Hs IH]; [done| |].
  - rewrite !filter_cons. case_decide; [by apply sublist_skip|done].
  - rewrite filter_cons. case_decide; [by apply sublist_cons|done].
Qed.

(** ** Sorting by descending key *)
Section SortedProperties.
Context {A : Type} (key : A → Z).

Lemma insert_desc_perm x l : insert_desc key x l ≡ₚ x :: l.
Proof.
  induction l as [|y l IH]; cbn [insert_desc]; [done|].
  destruct (key y <=? key x)%Z; [done|].
  rewrite IH. apply Permutation_swap.
Qed.

Lemma sorted_desc_perm l : sorted_desc key l ≡ₚ l.
Proof.
  induction l as [|x l IH]; [done|]. cbn [sorted_desc foldr].
  rewrite insert_desc_perm. by constructor.
Qed.

Lemma insert_desc_sorted x l :
  StronglySorted (λ a b, (key b ≤ key a)%Z) l →
  StronglySorted (λ a b, (key b ≤ key a)%Z) (insert_desc key x l).
Proof.
  induction 1 as [|y l Hs IH Hall]; cbn [insert_desc].
  - repeat constructor.
  - destruct (Z.leb_spec (key y) (key x)) as [Hle|Hgt].
    + constructor; [by constructor|].
      constructor; [done|].
      eapply Forall_impl; [exact Hall|]. cbn. intros; lia.
    + constructor; [done|].
      rewrite insert_desc_perm. constructor; [lia|done].
Qed.

Lemma sorted_desc_sorted l :
  StronglySorted (λ a b, (key b ≤ key a)%Z) (sorted_desc key l).
Proof.
  induction l as [|x l IH]; [constructor|]. by apply insert_desc_sorted.
Qed.

(** Stability: the elements of one key are listed in their order. *)
Lemma insert_desc_stable c x l :
  filter (λ a, key a = c) (insert_desc key x l)
  = filter (λ a, key a = c) (x :: l).
Proof.
  induction l as [|y l IH]; cbn [insert_desc]; [done|].
  destruct (Z.leb_spec (key y) (key x)) as [Hle|Hgt]; [done|].
  rewrite filter_cons, IH, !filter_cons.
  repeat case_decide; try done; lia.
Qed.

Lemma sorted_desc_stable c l :
  filter (λ a, key a = c) (sorted_desc key l) = filter (λ a, key a = c) l.
Proof.
  induction l as [|x l IH]; [done|]. cbn [sorted_desc foldr].
  rewrite insert_desc_stable, !filter_cons. fold (sorted_desc key l).
  by rewrite IH.
Qed.

Lemma sorted_desc_keeps_order x y l :
  key x = key y →
  [x; y] `sublist_of` sorted_desc key l → [x; y] `sublist_of` l.
Proof.
  intros Hxy Hsub.
  apply (filter_sublist_mono (λ a, key a = key x)) in Hsub.
  rewrite sorted_desc_stable in Hsub.
  rewrite !filter_cons, filter_nil, !decide_True in Hsub by done.
  etrans; [exact Hsub|]. apply sublist_filter.
Qed.

End SortedProperties.

Lemma lookup_lt_sublist {A} (l : list A) i j x y :
  l !! i = Some x → l !! j = Some y → (i < j)%nat → [x; y] `sublist_of` l.
Proof.
  revert i j. induction l as [|z l IH]; intros i j; [done|].
  destruct i as [|i], j as [|j]; try lia.
  - intros [= ->] Hj _. apply sublist_skip.
    apply singleton_sublist_l. by eapply list_elem_of_lookup_2.
  - intros Hi Hj Hlt. apply sublist_cons. apply (IH i j); [done|done|lia].
Qed.

Lemma sum_counts_perm l1 l2 : l1 ≡ₚ l2 → sum_counts l1 = sum_counts l2.
Proof.
  induction 1 as [|x l1 l2 _ IH|x y l|l1 l2 l3 _ IH1 _ IH2]; simpl;
    [done|by rewrite IH|lia|congruence].
Qed.

Lemma filter_fmap_absent {A B} `{EqDecision B} (f : A → B) k (l : list A) :
  k ∉ f <$> l → filter (λ x, f x = k) l = [].
Proof.
  induction l as [|x l IH]; [done|].
  rewrite fmap_cons, not_elem_of_cons, filter_cons. intros [Hne Hnin].
  rewrite decide_False by done. by apply IH.
Qed.

Lemma filter_fmap_once {A B} `{EqDecision B} (f : A → B) k (l : list A) :
  NoDup (f <$> l) → k ∈ f <$> l → length (filter (λ x, f x = k) l) = 1%nat.
Proof.
  induction l as [|x l IH]; [by intros _ ?%elem_of_nil|].
  rewrite fmap_cons, NoDup_cons, elem_of_cons, filter_cons.
  intros [Hx Hnd] Hk. case_decide as Hfx.
  - subst k. by rewrite filter_fmap_absent.
  - apply IH; [done|]. by destruct Hk.
Qed.

(** ** The pipeline *)
Section PipelineProperties.
Context (lcut : str → list str) (tone3 : char → str)
        (translate : nat → str → Reply).

Lemma all_words_bind texts :
  all_words lcut texts
  = texts ≫= (λ text, filter (λ w, is_chinese_word w) (lcut (clean_text text))).
Proof.
  unfold all_words.
  enough (∀ acc, foldl (λ a text,
                    a ++ filter (λ w, is_chinese_word w) (lcut (clean_text text)))
                  acc texts
               = acc ++ (texts ≫= (λ text, filter (λ w, is_chinese_word w)
                                              (lcut (clean_text text)))))
    as H by apply (H []).
  induction texts as [|text texts IH]; intros acc; simpl.
  - by rewrite app_nil_r.
  - by rewrite IH, app_assoc.
Qed.

Lemma elem_of_all_words texts w :
  w ∈ all_words lcut texts
  ↔ chinese_token w ∧ ∃ text, text ∈ texts ∧ w ∈ lcut (clean_text text).
Proof.
  rewrite all_words_bind, list_elem_of_bind.
  setoid_rewrite list_elem_of_filter. rewrite <- is_chinese_word_spec.
  naive_solver.
Qed.

Lemma enhance_Word d mt wc : Word (enhance tone3 d mt wc) = wc.1.
Proof. destruct wc as [w c]. simpl. by destruct (d !! w). Qed.

Lemma enhance_Count d mt wc : Count (enhance tone3 d mt wc) = wc.2.
Proof. destruct wc as [w c]. simpl. by destruct (d !! w). Qed.

Lemma enhance_Words d mt (wc : counter) :
  Word <$> (enhance tone3 d mt <$> wc) = wc.*1.
Proof.
  rewrite <- list_fmap_compose. apply list_fmap_ext.
  intros _ kv _. apply enhance_Word.
Qed.

Lemma sum_counts_enhance d mt (wc : counter) :
  sum_counts (enhance tone3 d mt <$> wc) = sum_values wc.
Proof.
  induction wc as [|kv wc IH]; [done|].
  rewrite fmap_cons, sum_values_cons. simpl. by rewrite enhance_Count, IH.
Qed.

Lemma enhanced_perm (wc : counter) d :
  add_translations_and_pinyin tone3 translate wc d
  ≡ₚ enhance tone3 d (translations (fetch_run translate wc d)) <$> wc.
Proof. apply sorted_desc_perm. Qed.

Lemma elem_of_enhanced (wc : counter) d e :
  e ∈ add_translations_and_pinyin tone3 translate wc d
  ↔ ∃ kv, kv ∈ wc
          ∧ e = enhance tone3 d (translations (fetch_run translate wc d)) kv.
Proof. rewrite enhanced_perm, list_elem_of_fmap. naive_solver. Qed.

(** C8: a token is in the filtered output of the tokenizer exactly when
    the segmenter produced it for some cleaned text and it is not empty,
    not whitespace only, and starts with an ideograph of U+4E00..U+9FFF;
    the keys of the word-count table are these tokens. *)
Theorem filtered_tokens_chinese (texts : list str) (w : str) :
  (w ∈ all_words lcut texts
   ↔ chinese_token w ∧ ∃ text, text ∈ texts ∧ w ∈ lcut (clean_text text))
  ∧ (w ∈ (segment_text lcut texts).*1 → chinese_token w).
Proof.
  split; [apply elem_of_all_words|].
  unfold segment_text. rewrite Counter_keys_elem, elem_of_all_words. tauto.
Qed.

(** C1: every key of the word-count table is the [Word] of exactly one
    entry of [data]; [total_words] is the sum of the [Count]s of [data];
    [unique_words] is the number of entries of [data] and the number of
    distinct filtered tokens. *)
Theorem output_accounts_for_table (texts : list str)
    (entries : list CedictEntry) :
  let word_counts := segment_text lcut texts in
  let out := main lcut tone3 translate texts entries in
  (∀ k, k ∈ word_counts.*1 →
        length (filter (λ e, Word e = k) (data out)) = 1%nat)
  ∧ total_words (metadata out) = sum_counts (data out)
  ∧ unique_words (metadata out) = Z.of_nat (length (data out))
  ∧ unique_words (metadata out)
    = Z.of_nat (size (list_to_set (all_words lcut texts) : gset str)).
Proof.
  intros word_counts out. subst out. unfold main. cbn [data metadata
    save_enhanced_data total_words unique_words]. fold word_counts.
  set (d := load_cedict_dictionary entries).
  pose proof (enhanced_perm word_counts d) as Hperm.
  split_and!.
  - intros k Hk. rewrite Hperm. apply filter_fmap_once.
    + rewrite enhance_Words. apply Counter_keys_NoDup.
    + by rewrite enhance_Words.
  - by rewrite (sum_counts_perm _ _ Hperm), sum_counts_enhance.
  - by rewrite Hperm, length_fmap.
  - unfold word_counts, segment_text. by rewrite Counter_length.
Qed.

(** C3: [data] is sorted by descending [Count], and of two entries with
    the same [Count] the one listed first is the one whose word occurs
    first in the token stream. *)
Theorem data_sorted_stable (texts : list str) (entries : list CedictEntry) :
  let out := main lcut tone3 translate texts entries in
  StronglySorted (λ e1 e2, (Count e2 ≤ Count e1)%Z) (data out)
  ∧ ∀ i j e1 e2,
      data out !! i = Some e1 → data out !! j = Some e2 → (i < j)%nat →
      Count e1 = Count e2 →
      ∃ a b, first_index (Word e1) (all_words lcut texts) = Some a
             ∧ first_index (Word e2) (all_words lcut texts) = Some b
             ∧ (a < b)%nat.
Proof.
  intros out. subst out. unfold main. cbn [data save_enhanced_data].
  split; [apply sorted_desc_sorted|].
  intros i j e1 e2 Hi Hj Hlt Heq.
  pose proof (lookup_lt_sublist _ _ _ _ _ Hi Hj Hlt) as Hsub.
  apply sorted_desc_keeps_order in Hsub; [|done].
  apply (fmap_sublist Word) in Hsub. rewrite enhance_Words in Hsub.
  by apply Counter_keys_order.
Qed.

(** C10: every entry of [data] has a [Count] of at least 1, which is the
    number of times its word occurs among the filtered tokens; so the word
    occurs there, and [total_words] is at least [unique_words]. *)
Theorem counts_positive (texts : list str) (entries : list CedictEntry) :
  let out := main lcut tone3 translate texts entries in
  (∀ e, e ∈ data out →
        (1 ≤ Count e)%Z
        ∧ Word e ∈ all_words lcut texts
        ∧ Count e = Z.of_nat (occurrences (Word e) (all_words lcut texts)))
  ∧ (unique_words (metadata out) ≤ total_words (metadata out))%Z.
Proof.
  intros out. subst out. unfold main. cbn [data metadata save_enhanced_data
    total_words unique_words].
  split.
  - intros e (kv & Hkv & ->)%elem_of_enhanced.
    rewrite enhance_Word, enhance_Count. destruct kv as [k n].
    apply Counter_elem_of in Hkv. naive_solver.
  - unfold segment_text. rewrite sum_values_Counter.
    apply inj_le. rewrite <- (length_fmap fst).
    apply submseteq_length, NoDup_submseteq; [apply Counter_keys_NoDup|].
    intros x. by rewrite Counter_keys_elem.
Qed.

End PipelineProperties.

(** ** The enricher *)
Section EnricherProperties.
Context (tone3 : char → str) (translate : nat → str → Reply).

Lemma derive_translation_per_character (word : str)
    (d : gmap str CedictEntry) :
  derive_translation_from_components word d = per_character_gloss word d.
Proof.
  unfold derive_translation_from_components, per_character_gloss. f_equal.
  set (g := λ c : char, match d !! [c] with
                       | Some entry => Py.join Py.comma_space (meanings entry)
                       | None => Py.question_mark
                       end).
  enough (∀ acc : list str,
            foldl (λ acc c, match d !! [c] with
                            | Some char_entry =>
                                acc ++ [Py.join Py.comma_space
                                          (meanings char_entry)]
                            | None => acc ++ [Py.question_mark]
                            end) acc word
            = acc ++ (g <$> word)) as H by apply (H []).
  induction word as [|c word IH]; intros acc; simpl.
  - by rewrite app_nil_r.
  - rewrite IH. unfold g at 2. destruct (d !! [c]); by rewrite <- app_assoc.
Qed.

Lemma hanzi_filter (word : str) :
  filter (λ c, Re.match_ hanzi [c]) word
  = filter (λ c, (0x4E00 ≤ c ≤ 0x9FFF)%N) word.
Proof. apply list_filter_iff. intros c. apply hanzi_matches. Qed.

Lemma enhanced_has_entry (word_counts : counter) (d : gmap str CedictEntry)
    (word : str) (count : Z) :
  (word, count) ∈ word_counts →
  ∃ e, e ∈ add_translations_and_pinyin tone3 translate word_counts d
       ∧ Word e = word ∧ Count e = count.
Proof.
  intros Hin. eexists. split; [apply elem_of_enhanced; eauto|].
  by rewrite enhance_Word, enhance_Count.
Qed.

(** C2: a word of the table that is a headword of the dictionary gets
    the entry's meanings joined by ", " as [Translation] and the entry's
    pinyin as [Pinyin]; it is not among the words sent for translation. *)
Theorem dictionary_hit (word_counts : counter) (d : gmap str CedictEntry)
    (word : str) (count : Z) (entry : CedictEntry) :
  (word, count) ∈ word_counts →
  d !! word = Some entry →
  {| Word := word; Count := count;
     Translation := Py.join Py.comma_space (meanings entry);
     Pinyin := pinyin entry |}
    ∈ add_translations_and_pinyin tone3 translate word_counts d
  ∧ (∀ e, e ∈ add_translations_and_pinyin tone3 translate word_counts d →
          Word e = word →
          Translation e = Py.join Py.comma_space (meanings entry)
          ∧ Pinyin e = pinyin entry)
  ∧ word ∉ missing_words_of word_counts d.
Proof.
  intros Hin Hd. split_and!.
  - apply elem_of_enhanced. exists (word, count). split; [done|].
    cbn [enhance]. by rewrite Hd.
  - intros e ([w c] & _ & ->)%elem_of_enhanced. rewrite enhance_Word.
    cbn [fst]. intros ->. cbn [enhance]. by rewrite Hd.
  - unfold missing_words_of. rewrite list_elem_of_filter, Hd. naive_solver.
Qed.

(** C5: a word of the table with no dictionary entry and no remote
    translation gets the per-character gloss as [Translation]. *)
Theorem fallback_translation (word_counts : counter)
    (d : gmap str CedictEntry) (word : str) (count : Z) :
  (word, count) ∈ word_counts →
  d !! word = None →
  translations (fetch_run translate word_counts d) !! word = None →
  (∃ e, e ∈ add_translations_and_pinyin tone3 translate word_counts d
        ∧ Word e = word ∧ Count e = count)
  ∧ ∀ e, e ∈ add_translations_and_pinyin tone3 translate word_counts d →
         Word e = word → Translation e = per_character_gloss word d.
Proof.
  intros Hin Hd Hmt. split; [by apply enhanced_has_entry|].
  intros e ([w c] & _ & ->)%elem_of_enhanced. rewrite enhance_Word.
  cbn [fst]. intros ->. cbn [enhance]. rewrite Hd, Hmt. cbn [Translation].
  apply derive_translation_per_character.
Qed.

(** C6: a word of the table with no dictionary entry gets as [Pinyin]
    the romanizations of its characters of U+4E00..U+9FFF, each converted
    on its own, joined by single spaces; its other characters are
    skipped. *)
Theorem synthesized_pinyin (word_counts : counter)
    (d : gmap str CedictEntry) (word : str) (count : Z) :
  (word, count) ∈ word_counts →
  d !! word = None →
  (∃ e, e ∈ add_translations_and_pinyin tone3 translate word_counts d
        ∧ Word e = word ∧ Count e = count)
  ∧ ∀ e, e ∈ add_translations_and_pinyin tone3 translate word_counts d →
         Word e = word →
         Pinyin e
         = Py.join Py.space
             (tone3 <$> filter (λ c, (0x4E00 ≤ c ≤ 0x9FFF)%N) word).
Proof.
  intros Hin Hd. split; [by apply enhanced_has_entry|].
  intros e ([w c] & _ & ->)%elem_of_enhanced. rewrite enhance_Word.
  cbn [fst]. intros ->. cbn [enhance]. rewrite Hd. cbn [Pinyin].
  by rewrite hanzi_filter.
Qed.

End EnricherProperties.

(** ** The translation loop *)

Lemma insert_all_lookup (l : list (str * str)) (m : gmap str str) w t :
  foldl (λ m wt, <[wt.1 := wt.2]> m) m l !! w = Some t →
  m !! w = Some t ∨ (w, t) ∈ l.
Proof.
  revert m. induction l as [|[w' t'] l IH]; intros m; simpl; [by left|].
  intros [H|H]%IH; [|right; by right].
  rewrite lookup_insert in H. case_decide; [|by left].
  right. simplify_eq. left.
Qed.

Lemma insert_all_is_Some (l : list (str * str)) (m : gmap str str) w :
  is_Some (m !! w) ∨ w ∈ l.*1 →
  is_Some (foldl (λ m wt, <[wt.1 := wt.2]> m) m l !! w).
Proof.
  revert m. induction l as [|[w' t'] l IH]; intros m; simpl.
  - intros [?|?%elem_of_nil]; done.
  - intros H. apply IH. rewrite lookup_insert. case_decide; [by left|].
    destruct H as [?|[?|?]%elem_of_cons]; naive_solver.
Qed.

Lemma batch_at_lookup (mw : list str) k j w :
  batch_at mw (k * batch_size) !! j = Some w
  ↔ mw !! (k * batch_size + j)%nat = Some w ∧ (j < batch_size)%nat.
Proof. unfold batch_at. by rewrite lookup_take_Some, lookup_drop. Qed.

Lemma batch_at_same_position (mw : list str) k j k' j' w :
  NoDup mw →
  batch_at mw (k * batch_size) !! j = Some w →
  batch_at mw (k' * batch_size) !! j' = Some w →
  k = k' ∧ j = j'.
Proof.
  intros Hnd [H1 Hj]%batch_at_lookup [H2 Hj']%batch_at_lookup.
  pose proof (NoDup_lookup _ _ _ _ Hnd H1 H2) as Heq.
  unfold batch_size in *. lia.
Qed.

Section FetchProperties.
Context (tone3 : char → str) (translate : nat → str → Reply).

Lemma fetch_upto_S (mw : list str) n :
  fetch_upto translate mw (S n)
  = fetch_batch translate mw (fetch_upto translate mw n) (n * batch_size).
Proof. unfold fetch_upto. by rewrite seq_S, fmap_app, foldl_app. Qed.

Lemma fetch_all (mw : list str) :
  fetch_missing_translations translate mw
  = fetch_upto translate mw (batch_count mw).
Proof.
  unfold fetch_missing_translations, fetch_upto, batch_count, Py.range0.
  by rewrite length_fmap, length_seq.
Qed.

Lemma fetch_run_upto (word_counts : counter) (d : gmap str CedictEntry) :
  fetch_run translate word_counts d
  = fetch_upto translate (missing_words_of word_counts d)
      (batch_count (missing_words_of word_counts d)).
Proof.
  unfold fetch_run. destruct (missing_words_of word_counts d) eqn:Hmw.
  - done.
  - apply fetch_all.
Qed.

Lemma calls_upto (mw : list str) n : calls (fetch_upto translate mw n) = n.
Proof.
  induction n as [|n IH]; [done|].
  rewrite fetch_upto_S. unfold fetch_batch. rewrite IH.
  by destruct (translate n _).
Qed.

Lemma log_upto (mw : list str) n k :
  (k < n)%nat →
  InfoTranslatingBatch (k + 1)
    ((length mw + batch_size - 1) / batch_size)
    ∈ log (fetch_upto translate mw n)
  ∧ ∀ e, translate k (payload mw k) = Raised e →
         ErrorTranslatingBatch (k + 1) e ∈ log (fetch_upto translate mw n).
Proof.
  induction n as [|n IH]; [lia|]. intros Hk.
  rewrite fetch_upto_S. unfold fetch_batch. rewrite calls_upto.
  rewrite Nat.div_mul by done. fold (payload mw n).
  destruct (decide (k = n)) as [->|Hne].
  - destruct (translate n (payload mw n)) as [text|e'] eqn:Hn; cbn [log].
    + split; [set_solver|]. done.
    + split; [set_solver|]. intros e [= ->]. set_solver.
  - destruct IH as [IH1 IH2]; [lia|].
    destruct (translate n (payload mw n)) as [text|e'] eqn:Hn; cbn [log];
      (split; [set_solver|]); intros e He; specialize (IH2 e He); set_solver.
Qed.

Lemma translations_upto_Some (mw : list str) n w t :
  translations (fetch_upto translate mw n) !! w = Some t →
  ∃ k j text,
    (k < n)%nat ∧ translate k (payload mw k) = Translated text
    ∧ batch_at mw (k * batch_size) !! j = Some w
    ∧ Py.split 10%N text !! j = Some t.
Proof.
  induction n as [|n IH]; [done|].
  rewrite fetch_upto_S. unfold fetch_batch. rewrite calls_upto.
  fold (payload mw n).
  destruct (translate n (payload mw n)) as [text|e] eqn:Hn; cbn [translations].
  - intros [H|H]%insert_all_lookup.
    + destruct (IH H) as (k & j & text' & ? & ?). exists k, j, text'.
      split; [lia|done].
    + apply list_elem_of_lookup in H as [j Hj].
      apply lookup_zip_Some in Hj as [? ?]. exists n, j, text.
      split_and!; [lia|done..].
  - intros H. destruct (IH H) as (k & j & text' & ? & ?). exists k, j, text'.
    split; [lia|done].
Qed.

Lemma translations_upto_is_Some (mw : list str) n k j text w t :
  (k < n)%nat →
  translate k (payload mw k) = Translated text →
  batch_at mw (k * batch_size) !! j = Some w →
  Py.split 10%N text !! j = Some t →
  is_Some (translations (fetch_upto translate mw n) !! w).
Proof.
  intros Hk Hok Hw Ht. induction n as [|n IH]; [lia|].
  rewrite fetch_upto_S. unfold fetch_batch. rewrite calls_upto.
  fold (payload mw n).
  destruct (decide (k = n)) as [->|Hne].
  - rewrite Hok. cbn [translations]. apply insert_all_is_Some. right.
    apply list_elem_of_fmap. exists (w, t). split; [done|].
    apply list_elem_of_lookup. exists j. by apply lookup_zip_Some.
  - destruct (translate n (payload mw n)); cbn [translations].
    + apply insert_all_is_Some. left. apply IH. lia.
    + apply IH. lia.
Qed.

End FetchProperties.

Section FailedBatch.
Context (tone3 : char → str) (translate : nat → str → Reply).

Lemma missing_words_NoDup (word_counts : counter) (d : gmap str CedictEntry) :
  NoDup word_counts.*1 → NoDup (missing_words_of word_counts d).
Proof. apply NoDup_filter. Qed.

Lemma missing_word_no_entry (word_counts : counter)
    (d : gmap str CedictEntry) (k j : nat) (w : str) :
  batch_at (missing_words_of word_counts d) (k * batch_size) !! j = Some w →
  d !! w = None.
Proof.
  intros [Hw _]%batch_at_lookup. apply list_elem_of_lookup_2 in Hw.
  unfold missing_words_of in Hw. by apply list_elem_of_filter in Hw as [? _].
Qed.

(** C7: when the call for one batch raises, the error is logged, no word
    of that batch gets a remote translation and each gets the
    per-character gloss; the loop makes one call per batch, so nothing is
    retried; every batch is announced in the log and the words of a batch
    whose call returns get the lines of the reply, position by position;
    and the enricher returns one entry per word. *)
Theorem failed_batch_falls_back (word_counts : counter)
    (d : gmap str CedictEntry) (k : nat) (e : str) :
  let missing_words := missing_words_of word_counts d in
  let run := fetch_run translate word_counts d in
  let out := add_translations_and_pinyin tone3 translate word_counts d in
  NoDup word_counts.*1 →
  (k < batch_count missing_words)%nat →
  translate k (payload missing_words k) = Raised e →
  ErrorTranslatingBatch (k + 1) e ∈ log run
  ∧ (∀ w, w ∈ batch_at missing_words (k * batch_size) →
          translations run !! w = None
          ∧ ∀ en, en ∈ out → Word en = w →
                  Translation en = per_character_gloss w d)
  ∧ calls run = batch_count missing_words
  ∧ (∀ k', (k' < batch_count missing_words)%nat →
       InfoTranslatingBatch (k' + 1)
         ((length missing_words + batch_size - 1) / batch_size) ∈ log run
       ∧ ∀ text j w t,
           translate k' (payload missing_words k') = Translated text →
           batch_at missing_words (k' * batch_size) !! j = Some w →
           Py.split 10%N text !! j = Some t →
           translations run !! w = Some t)
  ∧ length out = length word_counts.
Proof.
  intros mw run out Hnd Hk Hraised.
  assert (Hrun : run = fetch_upto translate mw (batch_count mw))
    by apply fetch_run_upto.
  pose proof (missing_words_NoDup word_counts d Hnd) as Hmw. fold mw in Hmw.
  assert (Hnone : ∀ w, w ∈ batch_at mw (k * batch_size) →
                       translations run !! w = None).
  { intros w [j Hj]%list_elem_of_lookup.
    destruct (translations run !! w) as [t|] eqn:Ht; [|done].
    rewrite Hrun in Ht.
    apply translations_upto_Some in Ht as (k' & j' & text & _ & Hok & Hw & _).
    destruct (batch_at_same_position mw k j k' j' w Hmw Hj Hw) as [<- _].
    congruence. }
  split_and!.
  - rewrite Hrun. by apply log_upto.
  - intros w Hw. split; [by apply Hnone|].
    intros en ([w' c] & _ & ->)%elem_of_enhanced. rewrite enhance_Word.
    cbn [fst]. intros ->. cbn [enhance].
    apply list_elem_of_lookup in Hw as Hj. destruct Hj as [j Hj].
    rewrite (missing_word_no_entry _ _ _ _ _ Hj). cbn [Translation].
    fold run. rewrite (Hnone w Hw). apply derive_translation_per_character.
  - rewrite Hrun. apply calls_upto.
  - intros k' Hk'. split; [rewrite Hrun; by apply log_upto|].
    intros text j w t Hok Hw Ht.
    destruct (translations_upto_is_Some translate mw (batch_count mw)
                k' j text w t Hk' Hok Hw Ht) as [t' Ht'].
    rewrite Hrun, Ht'. f_equal.
    apply translations_upto_Some in Ht'
      as (k'' & j'' & text'' & _ & Hok'' & Hw'' & Ht'').
    destruct (batch_at_same_position mw k' j k'' j'' w Hmw Hw Hw'')
      as [<- <-].
    congruence.
  - subst out. by rewrite enhanced_perm, length_fmap.
Qed.

End FailedBatch.

(** * The properties on the sample inputs *)

(** The word-count table of the sample texts. *)
Example sample_segment_text :
  segment_text lcut_chars sample_texts
  = [([0x4F60%N], 2%Z); ([0x597D%N], 1%Z); ([0x4E16%N], 2%Z);
     ([0x754C%N], 1%Z)].
Proof. reflexivity. Qed.

(** The cleaner on "你好世界！😀123", and the document of an empty corpus. *)
Example sample_clean_text :
  clean_text [0x4F60; 0x597D; 0x4E16; 0x754C; 0xFF01; 0x1F600; 49; 50; 51]%N
  = [0x4F60; 0x597D; 0x4E16; 0x754C; 49; 50; 51]%N.
Proof. reflexivity. Qed.

Example empty_corpus :
  main lcut_chars tone3_sample translate_down [] [sample_entry]
  = {| metadata := {| total_words := 0; unique_words := 0 |}; data := [] |}.
Proof. reflexivity. Qed.

(** C1 on the sample texts: 世 is the word of one entry. *)
Lemma output_accounts_for_table_witness :
  [0x4E16%N] ∈ (segment_text lcut_chars sample_texts).*1
  ∧ length (filter (λ e, Word e = [0x4E16%N])
              (data (main lcut_chars tone3_sample translate_down
                       sample_texts [sample_entry]))) = 1%nat.
Proof.
  assert (H : [0x4E16%N] ∈ (segment_text lcut_chars sample_texts).*1).
  { apply (bool_decide_unpack _). vm_compute. exact I. }
  split; [exact H|].
  exact (proj1 (output_accounts_for_table lcut_chars tone3_sample
                  translate_down sample_texts [sample_entry]) _ H).
Defined.

(** C3 on the sample texts: the first two entries have the same count and
    are listed in the order in which their words first occur. *)
Lemma data_sorted_stable_witness :
  ∃ e1 e2,
    data (main lcut_chars tone3_sample translate_down
            sample_texts [sample_entry]) !! 0%nat = Some e1
    ∧ data (main lcut_chars tone3_sample translate_down
              sample_texts [sample_entry]) !! 1%nat = Some e2
    ∧ Count e1 = Count e2
    ∧ ∃ a b, first_index (Word e1) (all_words lcut_chars sample_texts) = Some a
             ∧ first_index (Word e2) (all_words lcut_chars sample_texts)
               = Some b
             ∧ (a < b)%nat.
Proof.
  eexists _, _. split; [reflexivity|]. split; [reflexivity|].
  split; [reflexivity|].
  apply (proj2 (data_sorted_stable lcut_chars tone3_sample translate_down
                  sample_texts [sample_entry]) 0%nat 1%nat);
    [reflexivity|reflexivity|lia|reflexivity].
Defined.

(** C8 on the sample texts: the key 好. *)
Lemma filtered_tokens_chinese_witness :
  [0x597D%N] ∈ (segment_text lcut_chars sample_texts).*1
  ∧ chinese_token [0x597D%N].
Proof.
  assert (H : [0x597D%N] ∈ (segment_text lcut_chars sample_texts).*1).
  { apply (bool_decide_unpack _). vm_compute. exact I. }
  split; [exact H|].
  exact (proj2 (filtered_tokens_chinese lcut_chars sample_texts _) H).
Defined.

(** C10 on the sample texts: the entry of 你. *)
Lemma counts_positive_witness :
  {| Word := [0x4F60%N]; Count := 2;
     Translation := [121; 111; 117]%N; Pinyin := [110; 105; 51]%N |}
    ∈ data (main lcut_chars tone3_sample translate_down
              sample_texts [sample_entry])
  ∧ [0x4F60%N] ∈ all_words lcut_chars sample_texts.
Proof.
  set (e := {| Word := [0x4F60%N]; Count := 2;
               Translation := [121; 111; 117]%N;
               Pinyin := [110; 105; 51]%N |}).
  assert (H : e ∈ data (main lcut_chars tone3_sample translate_down
                          sample_texts [sample_entry])).
  { apply (list_elem_of_lookup_2 _ 0%nat). reflexivity. }
  split; [exact H|].
  destruct (proj1 (counts_positive lcut_chars tone3_sample translate_down
                     sample_texts [sample_entry]) e H) as (_ & H2 & _).
  exact H2.
Defined.

(** C2 on the sample texts: 你 is a headword. *)
Lemma dictionary_hit_witness :
  ([0x4F60%N], 2%Z) ∈ segment_text lcut_chars sample_texts
  ∧ load_cedict_dictionary [sample_entry] !! [0x4F60%N] = Some sample_entry
  ∧ {| Word := [0x4F60%N]; Count := 2;
       Translation := [121; 111; 117]%N; Pinyin := [110; 105; 51]%N |}
      ∈ add_translations_and_pinyin tone3_sample translate_down
          (segment_text lcut_chars sample_texts)
          (load_cedict_dictionary [sample_entry]).
Proof.
  assert (H1 : ([0x4F60%N], 2%Z) ∈ segment_text lcut_chars sample_texts).
  { apply (bool_decide_unpack _). vm_compute. exact I. }
  assert (H2 : load_cedict_dictionary [sample_entry] !! [0x4F60%N]
               = Some sample_entry) by (vm_compute; reflexivity).
  split; [exact H1|]. split; [exact H2|].
  exact (proj1 (dictionary_hit tone3_sample translate_down _ _ _ _ _ H1 H2)).
Defined.

(** C5 on the sample texts, the service being down: 好 is glossed "?". *)
Lemma fallback_translation_witness :
  ([0x597D%N], 1%Z) ∈ segment_text lcut_chars sample_texts
  ∧ load_cedict_dictionary [sample_entry] !! [0x597D%N] = None
  ∧ translations (fetch_run translate_down
                    (segment_text lcut_chars sample_texts)
                    (load_cedict_dictionary [sample_entry])) !! [0x597D%N]
    = None
  ∧ ∀ e, e ∈ add_translations_and_pinyin tone3_sample translate_down
               (segment_text lcut_chars sample_texts)
               (load_cedict_dictionary [sample_entry]) →
         Word e = [0x597D%N] → Translation e = [63%N].
Proof.
  assert (H1 : ([0x597D%N], 1%Z) ∈ segment_text lcut_chars sample_texts).
  { apply (bool_decide_unpack _). vm_compute. exact I. }
  assert (H2 : load_cedict_dictionary [sample_entry] !! [0x597D%N] = None)
    by (vm_compute; reflexivity).
  assert (H3 : translations (fetch_run translate_down
                    (segment_text lcut_chars sample_texts)
                    (load_cedict_dictionary [sample_entry])) !! [0x597D%N]
               = None) by (vm_compute; reflexivity).
  split; [exact H1|]. split; [exact H2|]. split; [exact H3|].
  exact (proj2 (fallback_translation tone3_sample translate_down
                  _ _ _ _ H1 H2 H3)).
Defined.

(** C6 on the sample texts: the pinyin of 世 is synthesized. *)
Lemma synthesized_pinyin_witness :
  ([0x4E16%N], 2%Z) ∈ segment_text lcut_chars sample_texts
  ∧ load_cedict_dictionary [sample_entry] !! [0x4E16%N] = None
  ∧ ∀ e, e ∈ add_translations_and_pinyin tone3_sample translate_down
               (segment_text lcut_chars sample_texts)
               (load_cedict_dictionary [sample_entry]) →
         Word e = [0x4E16%N] → Pinyin e = [0x4E16; 49]%N.
Proof.
  assert (H1 : ([0x4E16%N], 2%Z) ∈ segment_text lcut_chars sample_texts).
  { apply (bool_decide_unpack _). vm_compute. exact I. }
  assert (H2 : load_cedict_dictionary [sample_entry] !! [0x4E16%N] = None)
    by (vm_compute; reflexivity).
  split; [exact H1|]. split; [exact H2|].
  exact (proj2 (synthesized_pinyin tone3_sample translate_down
                  _ _ _ _ H1 H2)).
Defined.

(** C7 on a table of 101 words, cut into two batches, the first of which
    fails: the error is logged and two calls are made. *)
Lemma failed_batch_falls_back_witness :
  NoDup sample_counts.*1
  ∧ (0 < batch_count (missing_words_of sample_counts ∅))%nat
  ∧ translate_flaky 0 (payload (missing_words_of sample_counts ∅) 0)
    = Raised [116; 105; 109; 101; 111; 117; 116]%N
  ∧ ErrorTranslatingBatch 1 [116; 105; 109; 101; 111; 117; 116]%N
      ∈ log (fetch_run translate_flaky sample_counts ∅)
  ∧ calls (fetch_run translate_flaky sample_counts ∅) = 2%nat.
Proof.
  assert (H1 : NoDup sample_counts.*1).
  { apply (bool_decide_unpack _). vm_compute. exact I. }
  assert (H2 : (0 < batch_count (missing_words_of sample_counts ∅))%nat).
  { vm_compute. lia. }
  assert (H3 : translate_flaky 0 (payload (missing_words_of sample_counts ∅) 0)
               = Raised [116; 105; 109; 101; 111; 117; 116]%N)
    by reflexivity.
  split; [exact H1|]. split; [exact H2|]. split; [exact H3|].
  destruct (failed_batch_falls_back tone3_sample translate_flaky
              sample_counts ∅ 0 _ H1 H2 H3) as (Hlog & _ & Hcalls & _).
  split; [exact Hlog|]. rewrite Hcalls. vm_compute. reflexivity.
Defined.

(** * Further properties of the script *)

(** ** The dictionary loader *)

Lemma load_cedict_dictionary_snoc (entries : list CedictEntry) e :
  load_cedict_dictionary (entries ++ [e])
  = <[simplified e := e]> (load_cedict_dictionary entries).
Proof. unfold load_cedict_dictionary. by rewrite foldl_snoc. Qed.

(** X1: the dictionary maps a headword to the last parsed entry with that
    simplified form, and has no entry for a word that is the simplified
    form of none. *)
Theorem load_cedict_dictionary_last_wins (entries : list CedictEntry)
    (w : str) :
  load_cedict_dictionary entries !! w
  = last (filter (λ e, simplified e = w) entries).
Proof.
  induction entries as [|e entries IH] using rev_ind; [done|].
  rewrite load_cedict_dictionary_snoc, lookup_insert, filter_app, filter_cons,
    filter_nil.
  destruct (decide (simplified e = w)) as [Heq|Hne].
  - by rewrite last_snoc.
  - by rewrite app_nil_r.
Qed.

(** X2: the headwords of the dictionary are exactly the simplified forms
    of the parsed entries, and the entry stored for a headword is one of
    the parsed entries and has that simplified form. *)
Theorem load_cedict_dictionary_headwords (entries : list CedictEntry) :
  dom (load_cedict_dictionary entries)
  = (list_to_set (simplified <$> entries) : gset str)
  ∧ ∀ w e, load_cedict_dictionary entries !! w = Some e →
           simplified e = w ∧ e ∈ entries.
Proof.
  split.
  - induction entries as [|e entries IH] using rev_ind.
    + unfold load_cedict_dictionary. cbn. apply dom_empty_L.
    + rewrite load_cedict_dictionary_snoc, dom_insert_L, IH, fmap_app,
        list_to_set_app_L. cbn. set_solver.
  - induction entries as [|e entries IH] using rev_ind; [done|].
    intros w e'. rewrite load_cedict_dictionary_snoc, lookup_insert.
    case_decide as Hw.
    + intros [= <-]. split; [done|]. apply elem_of_app. right. left.
    + intros [? ?]%IH. split; [done|]. apply elem_of_app. by left.
Qed.

(** ** The cleaner and the token filter *)

(** X3: cleaning a concatenation is concatenating the cleaned parts, and
    the cleaned text is a subsequence of the text. *)
Theorem clean_text_app (text1 text2 : str) :
  clean_text (text1 ++ text2) = clean_text text1 ++ clean_text text2
  ∧ clean_text text1 `sublist_of` text1.
Proof.
  rewrite !clean_text_filter. split; [apply filter_app|apply sublist_filter].
Qed.

Lemma hanzi_not_space c : (0x4E00 ≤ c ≤ 0x9FFF)%N → ¬ Py.isspace c.
Proof.
  intros Hc. unfold Py.isspace.
  rewrite !orb_True, !andb_True, !Is_true_true, !N.leb_le, !N.eqb_eq. lia.
Qed.

(** X4: the test [word.strip()] of the token filter never decides: a
    token is kept exactly when the pattern matches at its start. *)
Theorem is_chinese_word_match (word : str) :
  is_chinese_word word = Re.match_ hanzi word.
Proof.
  apply eq_bool_prop_intro. unfold is_chinese_word.
  rewrite andb_True, strip_truthy. split; [tauto|].
  intros Hm. split; [|done].
  destruct word as [|c rest]; [done|]. cbn [Re.match_] in Hm.
  apply hanzi_matches, hanzi_not_space in Hm.
  by intros [? _]%Forall_cons.
Qed.

(** ** The tokenizer and the table *)
Section SegmentProperties.
Context (lcut : str → list str) (tone3 : char → str)
        (translate : nat → str → Reply).

Lemma occurrences_app k ws1 ws2 :
  occurrences k (ws1 ++ ws2) = (occurrences k ws1 + occurrences k ws2)%nat.
Proof. unfold occurrences. by rewrite filter_app, length_app. Qed.

Lemma all_words_app texts1 texts2 :
  all_words lcut (texts1 ++ texts2)
  = all_words lcut texts1 ++ all_words lcut texts2.
Proof. rewrite !all_words_bind. apply bind_app. Qed.

(** X5: [total_words] is the number of filtered tokens of the corpus. *)
Theorem total_words_counts_tokens (texts : list str)
    (entries : list CedictEntry) :
  total_words (metadata (main lcut tone3 translate texts entries))
  = Z.of_nat (length (all_words lcut texts)).
Proof. cbn. unfold segment_text. apply sum_values_Counter. Qed.

(** X6: the tokens of a corpus in two parts are the tokens of the first
    part followed by those of the second, and the count of a word is the
    sum of its counts in the parts. *)
Theorem segment_text_app (texts1 texts2 : list str) (k : str) :
  all_words lcut (texts1 ++ texts2)
  = all_words lcut texts1 ++ all_words lcut texts2
  ∧ get k (segment_text lcut (texts1 ++ texts2))
    = (get k (segment_text lcut texts1)
       + get k (segment_text lcut texts2))%Z.
Proof.
  split; [apply all_words_app|]. unfold segment_text.
  rewrite !get_Counter, all_words_app, occurrences_app. lia.
Qed.

(** X7: the counts, [total_words] and [unique_words] do not depend on the
    order of the texts of the corpus. *)
Theorem segment_text_perm (texts1 texts2 : list str)
    (entries : list CedictEntry) :
  texts1 ≡ₚ texts2 →
  (∀ k, get k (segment_text lcut texts1) = get k (segment_text lcut texts2))
  ∧ metadata (main lcut tone3 translate texts1 entries)
    = metadata (main lcut tone3 translate texts2 entries).
Proof.
  intros Hperm.
  assert (Hall : all_words lcut texts1 ≡ₚ all_words lcut texts2).
  { rewrite !all_words_bind. by rewrite Hperm. }
  split.
  - intros k. unfold segment_text. rewrite !get_Counter. f_equal.
    unfold occurrences. by rewrite Hall.
  - cbn. unfold segment_text. rewrite !sum_values_Counter, !Counter_length.
    f_equal; [by rewrite Hall|]. do 2 f_equal. apply set_eq. intros x.
    by rewrite !elem_of_list_to_set, Hall.
Qed.

(** X8: when no token of the corpus passes the filter, the document has
    the counts 0 and 0 and no entry, and no translation is requested. *)
Theorem no_token_empty_document (texts : list str)
    (entries : list CedictEntry) :
  all_words lcut texts = [] →
  main lcut tone3 translate texts entries
  = {| metadata := {| total_words := 0; unique_words := 0 |}; data := [] |}
  ∧ calls (fetch_run translate (segment_text lcut texts)
             (load_cedict_dictionary entries)) = 0%nat.
Proof.
  intros Hnil. unfold main, segment_text. rewrite Hnil. done.
Qed.

End SegmentProperties.

(** ** The batches *)

Lemma batch_count_eq (mw : list str) :
  batch_count mw = ((length mw + batch_size - 1) / batch_size)%nat.
Proof. unfold batch_count, Py.range0. by rewrite length_fmap, length_seq. Qed.

Lemma batch_count_bounds (mw : list str) :
  (length mw ≤ batch_count mw * batch_size < length mw + batch_size)%nat.
Proof.
  rewrite batch_count_eq. unfold batch_size.
  pose proof (Nat.div_mod_eq (length mw + 100 - 1) 100).
  pose proof (Nat.mod_upper_bound (length mw + 100 - 1) 100). lia.
Qed.

Lemma batches_upto (mw : list str) n :
  concat (batch_at mw <$> ((λ k, k * batch_size)%nat <$> seq 0 n))
  = take (n * batch_size) mw.
Proof.
  induction n as [|n IH]; [done|].
  rewrite seq_S, !fmap_app, concat_app, IH. cbn [fmap list_fmap concat].
  rewrite app_nil_r. unfold batch_at. rewrite take_take_drop.
  f_equal. lia.
Qed.

Lemma elem_of_batch (mw : list str) w :
  w ∈ mw →
  ∃ k j, (k < batch_count mw)%nat
         ∧ batch_at mw (k * batch_size) !! j = Some w.
Proof.
  intros [i Hi]%list_elem_of_lookup.
  pose proof (lookup_lt_Some _ _ _ Hi) as Hlt.
  pose proof (batch_count_bounds mw) as Hb.
  pose proof (Nat.div_mod_eq i 100) as Hdm.
  pose proof (Nat.mod_upper_bound i 100) as Hm.
  exists (i / 100)%nat, (i mod 100)%nat. split.
  - unfold batch_size in *. nia.
  - apply batch_at_lookup. unfold batch_size. split; [|lia].
    by replace (i / 100 * 100 + i mod 100)%nat with i by lia.
Qed.

(** X9: the batches are the words to translate cut in order into
    consecutive slices: joined they give the list back, each batch has
    between 1 and 100 words, and there are ⌈n / 100⌉ of them. *)
Theorem batches_partition (missing_words : list str) :
  concat (batches missing_words) = missing_words
  ∧ Forall (λ batch, (1 ≤ length batch ≤ batch_size)%nat)
           (batches missing_words)
  ∧ length (batches missing_words)
    = ((length missing_words + 99) / 100)%nat.
Proof.
  pose proof (batch_count_bounds missing_words) as Hb.
  split_and!.
  - unfold batches, Py.range0. rewrite batches_upto.
    apply take_ge. rewrite <- batch_count_eq. lia.
  - unfold batches, Py.range0. rewrite <- batch_count_eq.
    rewrite <- list_fmap_compose. apply Forall_fmap, Forall_forall.
    intros k [_ Hk]%elem_of_seq. cbn. unfold batch_at.
    rewrite length_take, length_drop. unfold batch_size in *. lia.
  - unfold batches. rewrite length_fmap. fold (batch_count missing_words).
    rewrite batch_count_eq. unfold batch_size. f_equal. lia.
Qed.

(** ** The replies of the translation service *)

Lemma split_one_line (s : str) : one_line s → Py.split 10%N s = [s].
Proof.
  unfold one_line. induction s as [|c s IH]; [done|].
  rewrite not_elem_of_cons. intros [Hc Hs]. cbn [Py.split].
  rewrite (proj2 (N.eqb_neq c 10)) by done. by rewrite IH.
Qed.

Lemma split_line_break (s rest : str) :
  one_line s → Py.split 10%N (s ++ 10%N :: rest) = s :: Py.split 10%N rest.
Proof.
  unfold one_line. induction s as [|c s IH]; [done|].
  rewrite not_elem_of_cons. intros [Hc Hs]. cbn [app Py.split].
  rewrite (proj2 (N.eqb_neq c 10)) by done. by rewrite IH.
Qed.

Lemma split_join_lines (lines : list str) :
  lines ≠ [] → Forall one_line lines →
  Py.split 10%N (Py.join Py.newline lines) = lines.
Proof.
  induction lines as [|s lines IH]; [done|]. intros _ [Hs Hl]%Forall_cons.
  destruct lines as [|s' lines]; [by apply split_one_line|].
  cbn [Py.join]. unfold Py.newline at 1. cbn [app].
  rewrite split_line_break by done. f_equal. by apply IH.
Qed.

Section ReplyProperties.
Context (tone3 : char → str) (translate : nat → str → Reply).

Lemma translations_run_aligned (word_counts : counter)
    (d : gmap str CedictEntry) k j text w t :
  NoDup word_counts.*1 →
  (k < batch_count (missing_words_of word_counts d))%nat →
  translate k (payload (missing_words_of word_counts d) k) = Translated text →
  batch_at (missing_words_of word_counts d) (k * batch_size) !! j = Some w →
  Py.split 10%N text !! j = Some t →
  translations (fetch_run translate word_counts d) !! w = Some t.
Proof.
  intros Hnd Hk Hok Hw Ht. rewrite fetch_run_upto.
  set (mw := missing_words_of word_counts d) in *.
  pose proof (missing_words_NoDup word_counts d Hnd) as Hmw. fold mw in Hmw.
  destruct (translations_upto_is_Some translate mw (batch_count mw)
              k j text w t Hk Hok Hw Ht) as [t' Ht'].
  rewrite Ht'. f_equal.
  apply translations_upto_Some in Ht'
    as (k' & j' & text' & _ & Hok' & Hw' & Ht').
  destruct (batch_at_same_position mw k j k' j' w Hmw Hw Hw') as [<- <-].
  congruence.
Qed.

(** X10: a word without dictionary entry for which the service returned a
    translation gets that translation, not the per-character gloss. *)
Theorem remote_translation_used (word_counts : counter)
    (d : gmap str CedictEntry) (word : str) (count : Z) (t : str) :
  (word, count) ∈ word_counts →
  d !! word = None →
  translations (fetch_run translate word_counts d) !! word = Some t →
  (∃ e, e ∈ add_translations_and_pinyin tone3 translate word_counts d
        ∧ Word e = word ∧ Count e = count)
  ∧ ∀ e, e ∈ add_translations_and_pinyin tone3 translate word_counts d →
         Word e = word → Translation e = t.
Proof.
  intros Hin Hd Hmt. split; [by apply enhanced_has_entry|].
  intros e ([w c] & _ & ->)%elem_of_enhanced. rewrite enhance_Word.
  cbn [fst]. intros ->. cbn [enhance]. by rewrite Hd, Hmt.
Qed.

(** X11: only words to translate get a remote translation: a word with
    one is a key of the table and has no dictionary entry. *)
Theorem translations_only_for_missing (word_counts : counter)
    (d : gmap str CedictEntry) (w t : str) :
  translations (fetch_run translate word_counts d) !! w = Some t →
  w ∈ word_counts.*1 ∧ d !! w = None.
Proof.
  rewrite fetch_run_upto.
  intros (k & j & text & _ & _ & Hw & _)%translations_upto_Some.
  split; [|by eapply missing_word_no_entry].
  apply batch_at_lookup in Hw as [Hw _]. apply list_elem_of_lookup_2 in Hw.
  unfold missing_words_of in Hw. by apply list_elem_of_filter in Hw as [_ ?].
Qed.

(** X12: a reply made of one line per word of the batch, none holding a
    line break, gives each word of the batch the line at its position. *)
Theorem aligned_reply_decoded (word_counts : counter)
    (d : gmap str CedictEntry) (k j : nat) (lines : list str) (w t : str) :
  NoDup word_counts.*1 →
  (k < batch_count (missing_words_of word_counts d))%nat →
  translate k (payload (missing_words_of word_counts d) k)
  = Translated (Py.join Py.newline lines) →
  Forall one_line lines →
  batch_at (missing_words_of word_counts d) (k * batch_size) !! j = Some w →
  lines !! j = Some t →
  translations (fetch_run translate word_counts d) !! w = Some t.
Proof.
  intros Hnd Hk Hok Hlines Hw Ht.
  eapply translations_run_aligned; [done..|].
  rewrite split_join_lines; [done| |done]. by intros ->.
Qed.

(** X13: when the reply has fewer lines than the batch has words, the
    words past the last line get no remote translation and are glossed
    character by character. *)
Theorem short_reply_falls_back (word_counts : counter)
    (d : gmap str CedictEntry) (k j : nat) (text w : str) :
  NoDup word_counts.*1 →
  translate k (payload (missing_words_of word_counts d) k) = Translated text →
  batch_at (missing_words_of word_counts d) (k * batch_size) !! j = Some w →
  (length (Py.split 10%N text) ≤ j)%nat →
  translations (fetch_run translate word_counts d) !! w = None
  ∧ ∀ e, e ∈ add_translations_and_pinyin tone3 translate word_counts d →
         Word e = w → Translation e = per_character_gloss w d.
Proof.
  intros Hnd Hok Hw Hshort.
  pose proof (missing_words_NoDup word_counts d Hnd) as Hmw.
  assert (Hnone : translations (fetch_run translate word_counts d) !! w
                  = None).
  { destruct (translations (fetch_run translate word_counts d) !! w)
      as [t|] eqn:Ht; [|done].
    rewrite fetch_run_upto in Ht.
    apply translations_upto_Some in Ht
      as (k' & j' & text' & _ & Hok' & Hw' & Ht').
    destruct (batch_at_same_position _ k j k' j' w Hmw Hw Hw') as [<- <-].
    rewrite Hok in Hok'. injection Hok' as <-.
    apply lookup_lt_Some in Ht'. lia. }
  split; [done|].
  intros e ([w' c] & _ & ->)%elem_of_enhanced. rewrite enhance_Word.
  cbn [fst]. intros ->. cbn [enhance].
  rewrite (missing_word_no_entry _ _ _ _ _ Hw), Hnone. cbn [Translation].
  apply derive_translation_per_character.
Qed.

(** X14: when every call returns at least one line per word of its
    batch, every word without dictionary entry gets a remote
    translation. *)
Theorem long_replies_translate_all (word_counts : counter)
    (d : gmap str CedictEntry) :
  (∀ k, (k < batch_count (missing_words_of word_counts d))%nat →
        ∃ text,
          translate k (payload (missing_words_of word_counts d) k)
          = Translated text
          ∧ (length (batch_at (missing_words_of word_counts d)
                       (k * batch_size))
             ≤ length (Py.split 10%N text))%nat) →
  ∀ w, w ∈ word_counts.*1 → d !! w = None →
       is_Some (translations (fetch_run translate word_counts d) !! w).
Proof.
  intros Hall w Hw Hd.
  assert (Hmw : w ∈ missing_words_of word_counts d)
    by by apply list_elem_of_filter.
  apply elem_of_batch in Hmw as (k & j & Hk & Hj).
  destruct (Hall k Hk) as (text & Hok & Hlen).
  pose proof (lookup_lt_Some _ _ _ Hj) as Hlt.
  destruct (lookup_lt_is_Some_2 (Py.split 10%N text) j) as [t Ht]; [lia|].
  rewrite fetch_run_upto. by eapply translations_upto_is_Some.
Qed.

(** X15: an error line is logged only for a batch whose call raised, with
    the exception of that call. *)
Theorem error_logged_only_when_raised (word_counts : counter)
    (d : gmap str CedictEntry) (b : nat) (e : str) :
  ErrorTranslatingBatch b e ∈ log (fetch_run translate word_counts d) →
  ∃ k, b = (k + 1)%nat
       ∧ (k < batch_count (missing_words_of word_counts d))%nat
       ∧ translate k (payload (missing_words_of word_counts d) k) = Raised e.
Proof.
  rewrite fetch_run_upto. set (mw := missing_words_of word_counts d).
  generalize (batch_count mw). intros n.
  induction n as [|n IH]; [by intros ?%elem_of_nil|].
  rewrite fetch_upto_S. unfold fetch_batch. rewrite calls_upto.
  rewrite Nat.div_mul by done. fold (payload mw n).
  destruct (translate n (payload mw n)) as [text|e'] eqn:Hn; cbn [log];
    rewrite elem_of_app.
  - intros [H|H].
    + destruct (IH H) as (k & ? & ? & ?). exists k. split_and!; [done|lia|done].
    + apply list_elem_of_singleton in H. discriminate.
  - intros [H|H].
    + destruct (IH H) as (k & ? & ? & ?). exists k. split_and!; [done|lia|done].
    + apply elem_of_cons in H as [H|H]; [discriminate|].
      apply list_elem_of_singleton in H. injection H as -> ->.
      exists n. split_and!; [done|lia|done].
Qed.

End ReplyProperties.

(** ** The enricher and the statistics *)

Lemma filter_none {A} (P : A → Prop) `{!∀ x, Decision (P x)} (l : list A) :
  (∀ x, x ∈ l → ¬ P x) → filter P l = [].
Proof.
  induction l as [|x l IH]; [done|]. intros Hno.
  rewrite filter_cons, decide_False by (apply Hno; left).
  apply IH. intros y Hy. apply Hno. by right.
Qed.

Lemma insert_desc_fmap {A B} (f : A → B) (key : B → Z) x (l : list A) :
  insert_desc key (f x) (f <$> l) = f <$> insert_desc (λ a, key (f a)) x l.
Proof.
  induction l as [|y l IH]; [done|]. cbn [fmap list_fmap insert_desc].
  destruct (key (f y) <=? key (f x))%Z; [done|].
  cbn [fmap list_fmap]. f_equal. apply IH.
Qed.

Lemma sorted_desc_fmap {A B} (f : A → B) (key : B → Z) (l : list A) :
  sorted_desc key (f <$> l) = f <$> sorted_desc (λ a, key (f a)) l.
Proof.
  induction l as [|x l IH]; [done|]. cbn [fmap list_fmap sorted_desc foldr].
  fold (sorted_desc key (f <$> l)). fold (sorted_desc (λ a, key (f a)) l).
  by rewrite IH, insert_desc_fmap.
Qed.

Lemma sorted_desc_ext {A} (key1 key2 : A → Z) (l : list A) :
  (∀ x, key1 x = key2 x) → sorted_desc key1 l = sorted_desc key2 l.
Proof.
  intros Hext. induction l as [|x l IH]; [done|]. cbn [sorted_desc foldr].
  fold (sorted_desc key1 l). fold (sorted_desc key2 l). rewrite IH.
  generalize (sorted_desc key2 l). intros k.
  induction k as [|y k IHk]; [done|]. cbn [insert_desc].
  by rewrite !Hext, IHk.
Qed.

Section EnricherInvariants.
Context (lcut : str → list str) (tone3 : char → str).

Lemma enhanced_pairs (translate : nat → str → Reply) (word_counts : counter)
    (d : gmap str CedictEntry) :
  (λ e, (Word e, Count e))
    <$> add_translations_and_pinyin tone3 translate word_counts d
  = sorted_desc snd word_counts.
Proof.
  unfold add_translations_and_pinyin. rewrite sorted_desc_fmap.
  rewrite (sorted_desc_ext _ snd) by (intros kv; apply enhance_Count).
  rewrite <- list_fmap_compose.
  rewrite <- (list_fmap_id (sorted_desc snd word_counts)) at 2.
  apply list_fmap_ext. intros _ [w c] _. cbn [compose].
  by rewrite enhance_Word, enhance_Count.
Qed.

(** X16: the enricher neither drops, adds nor alters a word or a count:
    the words and counts of its result are the items of the table in
    descending order of count, whatever the dictionary holds and the
    service replies. *)
Theorem enricher_keeps_items (translate : nat → str → Reply)
    (word_counts : counter) (d : gmap str CedictEntry) :
  (λ e, (Word e, Count e))
    <$> add_translations_and_pinyin tone3 translate word_counts d
  = sorted_desc snd word_counts
  ∧ length (add_translations_and_pinyin tone3 translate word_counts d)
    = length word_counts.
Proof.
  split; [apply enhanced_pairs|]. by rewrite enhanced_perm, length_fmap.
Qed.

(** X17: the statistics logged agree with the document written: the five
    most common words logged are the words and counts of the first five
    entries of [data], and the totals logged are those of [metadata]. *)
Theorem statistics_agree_with_document (translate : nat → str → Reply)
    (texts : list str) (entries : list CedictEntry) :
  let stats := print_statistics (segment_text lcut texts) in
  let out := main lcut tone3 translate texts entries in
  logged_top stats = (λ e, (Word e, Count e)) <$> take 5 (data out)
  ∧ logged_total stats = total_words (metadata out)
  ∧ logged_unique stats = unique_words (metadata out).
Proof.
  intros stats out. split; [|done]. subst stats out.
  unfold main. cbn [logged_top print_statistics data save_enhanced_data].
  unfold most_common. by rewrite fmap_take, enhanced_pairs.
Qed.

(** X18: when every word of the table is a headword, no translation is
    requested, nothing is logged, and the result does not depend on the
    translation service. *)
Theorem no_miss_no_request (translate translate' : nat → str → Reply)
    (word_counts : counter) (d : gmap str CedictEntry) :
  (∀ w, w ∈ word_counts.*1 → is_Some (d !! w)) →
  fetch_run translate word_counts d = fetch_init
  ∧ add_translations_and_pinyin tone3 translate word_counts d
    = add_translations_and_pinyin tone3 translate' word_counts d.
Proof.
  intros Hall.
  assert (Hmw : missing_words_of word_counts d = []).
  { apply filter_none. intros w Hw Hnone. destruct (Hall w Hw) as [e He].
    congruence. }
  assert (Hrun : ∀ tr, fetch_run tr word_counts d = fetch_init).
  { intros tr. unfold fetch_run. by rewrite Hmw. }
  split; [apply Hrun|].
  unfold add_translations_and_pinyin. by rewrite !Hrun.
Qed.

End EnricherInvariants.

(** * The further properties on the sample inputs *)

(** X2 with two entries for 你: the stored one has that simplified form. *)
Lemma load_cedict_dictionary_headwords_witness :
  load_cedict_dictionary [sample_entry; sample_entry_again] !! [0x4F60%N]
  = Some sample_entry_again
  ∧ simplified sample_entry_again = [0x4F60%N]
  ∧ sample_entry_again ∈ [sample_entry; sample_entry_again].
Proof.
  assert (H : load_cedict_dictionary [sample_entry; sample_entry_again]
              !! [0x4F60%N] = Some sample_entry_again)
    by (vm_compute; reflexivity).
  split; [exact H|].
  exact (proj2 (load_cedict_dictionary_headwords
                  [sample_entry; sample_entry_again]) _ _ H).
Defined.

(** X7 on the sample texts and the same texts in the other order. *)
Lemma segment_text_perm_witness :
  sample_texts ≡ₚ reverse sample_texts
  ∧ metadata (main lcut_chars tone3_sample translate_down
                sample_texts [sample_entry])
    = metadata (main lcut_chars tone3_sample translate_down
                  (reverse sample_texts) [sample_entry]).
Proof.
  assert (H : sample_texts ≡ₚ reverse sample_texts) by apply Permutation_swap.
  split; [exact H|].
  exact (proj2 (segment_text_perm lcut_chars tone3_sample translate_down
                  _ _ [sample_entry] H)).
Defined.

(** X8 on the one text "123!". *)
Lemma no_token_empty_document_witness :
  all_words lcut_chars [sample_digits] = []
  ∧ main lcut_chars tone3_sample translate_echo [sample_digits] [sample_entry]
    = {| metadata := {| total_words := 0; unique_words := 0 |}; data := [] |}.
Proof.
  assert (H : all_words lcut_chars [sample_digits] = []) by reflexivity.
  split; [exact H|].
  exact (proj1 (no_token_empty_document lcut_chars tone3_sample
                  translate_echo [sample_digits] [sample_entry] H)).
Defined.

(** X10 on the table of 101 words: the last word is in the second batch,
    which the flaky service returns unchanged. *)
Lemma remote_translation_used_witness :
  ([0x4E64%N], 1%Z) ∈ sample_counts
  ∧ (∅ : gmap str CedictEntry) !! [0x4E64%N] = None
  ∧ translations (fetch_run translate_flaky sample_counts ∅) !! [0x4E64%N]
    = Some [0x4E64%N]
  ∧ ∀ e, e ∈ add_translations_and_pinyin tone3_sample translate_flaky
               sample_counts ∅ →
         Word e = [0x4E64%N] → Translation e = [0x4E64%N].
Proof.
  assert (H1 : ([0x4E64%N], 1%Z) ∈ sample_counts).
  { apply (bool_decide_unpack _). vm_compute. exact I. }
  assert (H2 : (∅ : gmap str CedictEntry) !! [0x4E64%N] = None)
    by reflexivity.
  assert (H3 : translations (fetch_run translate_flaky sample_counts ∅)
               !! [0x4E64%N] = Some [0x4E64%N]) by (vm_compute; reflexivity).
  split; [exact H1|]. split; [exact H2|]. split; [exact H3|].
  exact (proj2 (remote_translation_used tone3_sample translate_flaky
                  _ _ _ _ _ H1 H2 H3)).
Defined.

(** X11 on the same run. *)
Lemma translations_only_for_missing_witness :
  translations (fetch_run translate_flaky sample_counts ∅) !! [0x4E64%N]
  = Some [0x4E64%N]
  ∧ [0x4E64%N] ∈ sample_counts.*1.
Proof.
  assert (H : translations (fetch_run translate_flaky sample_counts ∅)
              !! [0x4E64%N] = Some [0x4E64%N]) by (vm_compute; reflexivity).
  split; [exact H|].
  exact (proj1 (translations_only_for_missing translate_flaky
                  sample_counts ∅ _ _ H)).
Defined.

(** X12 on the second batch of the table of 101 words, returned
    unchanged. *)
Lemma aligned_reply_decoded_witness :
  NoDup sample_counts.*1
  ∧ (1 < batch_count (missing_words_of sample_counts ∅))%nat
  ∧ translate_echo 1 (payload (missing_words_of sample_counts ∅) 1)
    = Translated (Py.join Py.newline [[0x4E64%N]])
  ∧ Forall one_line [[0x4E64%N]]
  ∧ batch_at (missing_words_of sample_counts ∅) (1 * batch_size) !! 0%nat
    = Some [0x4E64%N]
  ∧ translations (fetch_run translate_echo sample_counts ∅) !! [0x4E64%N]
    = Some [0x4E64%N].
Proof.
  assert (H1 : NoDup sample_counts.*1).
  { apply (bool_decide_unpack _). vm_compute. exact I. }
  assert (H2 : (1 < batch_count (missing_words_of sample_counts ∅))%nat).
  { vm_compute. lia. }
  assert (H3 : translate_echo 1 (payload (missing_words_of sample_counts ∅) 1)
               = Translated (Py.join Py.newline [[0x4E64%N]]))
    by (vm_compute; reflexivity).
  assert (H4 : Forall one_line [[0x4E64%N]]).
  { apply (bool_decide_unpack _). vm_compute. exact I. }
  assert (H5 : batch_at (missing_words_of sample_counts ∅) (1 * batch_size)
               !! 0%nat = Some [0x4E64%N]) by (vm_compute; reflexivity).
  split; [exact H1|]. split; [exact H2|]. split; [exact H3|].
  split; [exact H4|]. split; [exact H5|].
  exact (aligned_reply_decoded translate_echo sample_counts ∅ 1 0
           [[0x4E64%N]] _ _ H1 H2 H3 H4 H5 eq_refl).
Defined.

(** X13 on the first batch of the table of 101 words, answered with one
    line: the second word is glossed "?". *)
Lemma short_reply_falls_back_witness :
  NoDup sample_counts.*1
  ∧ translate_hello 0 (payload (missing_words_of sample_counts ∅) 0)
    = Translated [104; 101; 108; 108; 111]%N
  ∧ batch_at (missing_words_of sample_counts ∅) (0 * batch_size) !! 1%nat
    = Some [0x4E01%N]
  ∧ (length (Py.split 10%N [104; 101; 108; 108; 111]%N) ≤ 1)%nat
  ∧ translations (fetch_run translate_hello sample_counts ∅) !! [0x4E01%N]
    = None.
Proof.
  assert (H1 : NoDup sample_counts.*1).
  { apply (bool_decide_unpack _). vm_compute. exact I. }
  assert (H2 : translate_hello 0 (payload (missing_words_of sample_counts ∅) 0)
               = Translated [104; 101; 108; 108; 111]%N) by reflexivity.
  assert (H3 : batch_at (missing_words_of sample_counts ∅) (0 * batch_size)
               !! 1%nat = Some [0x4E01%N]) by (vm_compute; reflexivity).
  assert (H4 : (length (Py.split 10%N [104; 101; 108; 108; 111]%N) ≤ 1)%nat)
    by (vm_compute; lia).
  split; [exact H1|]. split; [exact H2|]. split; [exact H3|].
  split; [exact H4|].
  exact (proj1 (short_reply_falls_back tone3_sample translate_hello
                  sample_counts ∅ 0 1 _ _ H1 H2 H3 H4)).
Defined.

(** X14 on the sample texts, no word being a headword and the service
    returning each text unchanged. *)
Lemma long_replies_translate_all_witness :
  [0x597D%N] ∈ (segment_text lcut_chars sample_texts).*1
  ∧ is_Some (translations
               (fetch_run translate_echo
                  (segment_text lcut_chars sample_texts) ∅) !! [0x597D%N]).
Proof.
  assert (H : [0x597D%N] ∈ (segment_text lcut_chars sample_texts).*1).
  { apply (bool_decide_unpack _). vm_compute. exact I. }
  split; [exact H|].
  apply (long_replies_translate_all translate_echo
           (segment_text lcut_chars sample_texts) ∅); [|exact H|reflexivity].
  intros k Hk. assert (k = 0%nat) as -> by (vm_compute in Hk; lia).
  eexists. split; [reflexivity|]. vm_compute. lia.
Defined.

(** X15 on the table of 101 words: the error line of the first batch. *)
Lemma error_logged_only_when_raised_witness :
  ErrorTranslatingBatch 1 [116; 105; 109; 101; 111; 117; 116]%N
    ∈ log (fetch_run translate_flaky sample_counts ∅)
  ∧ ∃ k, 1%nat = (k + 1)%nat
         ∧ translate_flaky k (payload (missing_words_of sample_counts ∅) k)
           = Raised [116; 105; 109; 101; 111; 117; 116]%N.
Proof.
  assert (H : ErrorTranslatingBatch 1 [116; 105; 109; 101; 111; 117; 116]%N
                ∈ log (fetch_run translate_flaky sample_counts ∅)).
  { apply (list_elem_of_lookup_2 _ 1%nat). vm_compute. reflexivity. }
  split; [exact H|].
  destruct (error_logged_only_when_raised translate_flaky sample_counts ∅
              _ _ H) as (k & Hb & _ & Hk).
  exists k. split; [exact Hb|exact Hk].
Defined.

(** X18 on the texts "你" and "世", both headwords. *)
Lemma no_miss_no_request_witness :
  (∀ w, w ∈ (segment_text lcut_chars [[0x4F60%N]; [0x4E16%N]]).*1 →
        is_Some (load_cedict_dictionary [sample_entry; sample_entry_world]
                 !! w))
  ∧ add_translations_and_pinyin tone3_sample translate_down
      (segment_text lcut_chars [[0x4F60%N]; [0x4E16%N]])
      (load_cedict_dictionary [sample_entry; sample_entry_world])
    = add_translations_and_pinyin tone3_sample translate_echo
        (segment_text lcut_chars [[0x4F60%N]; [0x4E16%N]])
        (load_cedict_dictionary [sample_entry; sample_entry_world]).
Proof.
  assert (H : ∀ w, w ∈ (segment_text lcut_chars [[0x4F60%N]; [0x4E16%N]]).*1 →
                   is_Some (load_cedict_dictionary
                              [sample_entry; sample_entry_world] !! w)).
  { intros w Hw.
    change (w ∈ [[0x4F60%N]; [0x4E16%N]]) in Hw.
    apply elem_of_cons in Hw as [->|Hw]; [by eexists|].
    apply elem_of_cons in Hw as [->|Hw]; [by eexists|].
    by apply elem_of_nil in Hw. }
  split; [exact H|].
  exact (proj2 (no_miss_no_request tone3_sample translate_down translate_echo
                  _ _ H)).
Defined.
